(** * Moonraker: request correlation and subscription aggregation

    A shallow embedding of the core of [moonraker/moonraker.py]: the
    [Server] object (subscription merge in [make_request], response
    dispatch in [process_command], disconnection handling in
    [on_connection_closed]), [KlippyConnection.send_request] and the
    [BaseRequest] objects the server tracks.

    Conventions.
    - Python dictionaries are finite maps ([gmap]); JSON documents decoded
      by [json.loads] are values of type [json].  JSON numbers are
      integers here; floating point payloads are left out.
    - Request objects live in a heap indexed by their address.  CPython's
      [id(obj)] is that address: it is unique among the objects alive at
      the same time, and an address is free again once its object has
      been released.
    - The event loop is a sequence of [event]s, each handled atomically
      by [step], as tornado runs one callback at a time. *)

From stdpp Require Import gmap strings list fin_maps.
From Stdlib Require Import ZArith Lia.

Set Warnings "-register-all".
Local Open Scope Z_scope.

(** ** Values *)

(** Documents produced by [json.loads]. *)
Inductive json : Type :=
  | JNull
  | JBool (b : bool)
  | JInt (z : Z)
  | JStr (s : string)
  | JArr (l : list json)
  | JObj (m : gmap string json).

(** Python truth value of a decoded document: [None], [False], [0], the
    empty string, the empty list and the empty dict are false. *)
Definition truthy (v : json) : bool :=
  match v with
  | JNull => false
  | JBool b => b
  | JInt z => negb (z =? 0)
  | JStr s => negb (String.eqb s "")
  | JArr l => match l with [] => false | _ :: _ => true end
  | JObj m => negb (bool_decide (m = ∅))
  end.

(** [utils.ServerError]: an exception carrying a message and an HTTP
    status code.  The class is declared in [utils.py]; the core only
    constructs it as [ServerError(message, status_code)] and tests
    [isinstance(_, ServerError)]. *)
Record ServerError : Type := mkServerError {
  message : json;
  status_code : Z
}.

(** What a request's [response] slot can hold: a plain payload or a
    [ServerError] instance. *)
Inductive response_value : Type :=
  | Payload (v : json)
  | Error (e : ServerError).

(** ** Subscription aggregation (make_request, lines 311-321) *)

(** The fields requested for one object: [None] is Python's [None]
    (every field), [Some l] a list of field names. *)
Abbreviation fields := (option (list string)).

(** A dictionary from object names to the fields requested, the shape
    of both [self.all_subscriptions] and [params['objects']]. *)
Abbreviation subscriptions := (gmap string (option (list string))).

(** [list(set(pi) | set(items))].  Python does not specify the order in
    which a set is listed; [elements] fixes one. *)
Definition uitems (pi items : list string) : list string :=
  elements ((list_to_set pi : gset string) ∪ list_to_set items).

(** The branch taken when [obj] is already subscribed: [pi] is the
    recorded entry, [items] the requested one. *)
Definition merge_items (pi items : fields) : fields :=
  match items, pi with
  | Some items', Some pi' => Some (uitems pi' items')
  | _, _ => None
  end.

(** One iteration of the loop over [params['objects'].items()]. *)
Definition subscribe_object (obj : string) (items : fields)
    (all_subscriptions : subscriptions) : subscriptions :=
  match all_subscriptions !! obj with
  | Some pi => <[obj := merge_items pi items]> all_subscriptions
  | None => <[obj := items]> all_subscriptions
  end.

(** The whole loop: every entry of the requested dictionary is merged
    into the table. *)
Definition merge_subscriptions (all_subscriptions objects : subscriptions)
    : subscriptions :=
  map_fold subscribe_object all_subscriptions objects.

(** Field lists denote sets: two entries agree when both are [None] or
    both list the same names. *)
Definition same_fields (f g : fields) : Prop :=
  match f, g with
  | None, None => True
  | Some l, Some k => ∀ x : string, x ∈ l ↔ x ∈ k
  | _, _ => False
  end.

(** Two tables agree when they have the same objects with the same
    field sets. *)
Definition same_table (t u : subscriptions) : Prop :=
  ∀ obj : string,
    match t !! obj, u !! obj with
    | None, None => True
    | Some f, Some g => same_fields f g
    | _, _ => False
    end.

(** The entry of [obj] after a merge, from the entries before it. *)
Definition merged_entry (pi items : option fields) : option fields :=
  match items with
  | None => pi
  | Some i => Some (match pi with Some p => merge_items p i | None => i end)
  end.

(** The [objects] parameter as it travels in [params]: [None] is JSON
    null, a field list is an array of strings. *)
Definition encode_fields (f : fields) : json :=
  match f with
  | None => JNull
  | Some l => JArr (JStr <$> l)
  end.

Definition encode_objects (subs : subscriptions) : json :=
  JObj (encode_fields <$> subs).

Definition decode_field (v : json) : option string :=
  match v with
  | JStr s => Some s
  | _ => None
  end.

Definition decode_fields (v : json) : option fields :=
  match v with
  | JNull => Some None
  | JArr l => Some <$> mapM decode_field l
  | _ => None
  end.

(** [decode_objects v] reads [v] as a dictionary from object names to
    [None] or a list of field names, the shape Klippy documents for
    [objects/subscribe].  Other shapes are outside this model. *)
Definition decode_objects (v : json) : option subscriptions :=
  match v with
  | JObj m =>
      if bool_decide (map_Forall (λ _ x, is_Some (decode_fields x)) m)
      then Some (omap decode_fields m)
      else None
  | _ => None
  end.

(** ** Tracked requests (class BaseRequest) *)

(** A request object.  [id] is [id(self)], the address of the object;
    [_event] is the tornado [Event] (set or not); [response] starts as
    [None].  [notified] is a ghost field: the arguments of the calls of
    [notify] so far, oldest first. *)
Record BaseRequest : Type := mkBaseRequest {
  id : Z;
  rpc_method : string;
  params : gmap string json;
  _event : bool;
  response : response_value;
  notified : list response_value
}.

(** [BaseRequest.__init__], for the object allocated at address [self]. *)
Definition new_request (self : Z) (rpc_method : string)
    (params : gmap string json) : BaseRequest :=
  {| id := self; rpc_method := rpc_method; params := params;
     _event := false; response := Payload JNull; notified := [] |}.

(** [BaseRequest.notify]. *)
Definition notify (resp : response_value) (r : BaseRequest) : BaseRequest :=
  {| id := id r; rpc_method := rpc_method r; params := params r;
     _event := true; response := resp;
     notified := notified r ++ [resp] |}.

(** How an awaited call ends: it returns a value or raises. *)
Inductive outcome : Type :=
  | Returned (v : json)
  | Raised (e : ServerError).

(** [BaseRequest.wait]: the caller stays suspended ([None]) until the
    event is set (the 60 second timeout only logs and waits again), then
    raises the response if it is a [ServerError] and returns it
    otherwise. *)
Definition wait (r : BaseRequest) : option outcome :=
  if _event r then
    Some (match response r with
          | Error e => Raised e
          | Payload v => Returned v
          end)
  else None.

(** [BaseRequest.to_dict]. *)
Definition to_dict (r : BaseRequest) : json :=
  JObj (<["id" := JInt (id r)]>
        (<["method" := JStr (rpc_method r)]>
         {["params" := JObj (params r)]})).

(** ** The server *)

(** Callbacks registered as remote methods: the two the server installs
    in [__init__], and methods registered by plugins (such as
    [set_device_power] of the power plugin), whose bodies are outside the
    core. *)
Inductive callback : Type :=
  | process_gcode_response
  | process_status_update
  | plugin_method (name : string).

(** What the server does to the outside world. *)
Inductive effect : Type :=
  | Event (name : string) (args : list json)
  | Written (frame : json)
  | PluginCall (name : string) (kwargs : gmap string json).

(** [tornado.iostream.IOStream], as far as the core looks at it. *)
Record IOStream : Type := mkIOStream { closed : bool }.

(** The [Server] object with its [KlippyConnection] and the part of the
    process it acts on.
    - [pending_requests] maps a request id to the address of the request
      object stored under it;
    - [iostream] is [klippy_connection.iostream];
    - [init_cb] tells whether the periodic [_initialize] callback runs;
    - [heap] holds the live [BaseRequest] objects by address;
    - [spawned] are the [send_request] callbacks handed to
      [ioloop.spawn_callback] and not yet run, oldest first;
    - [connect_timers] counts the scheduled [_connect_klippy] calls;
    - [trace] lists the effects so far, oldest first. *)
Record Server : Type := mkServer {
  init_list : list string;
  klippy_state : json;
  all_subscriptions : subscriptions;
  pending_requests : gmap Z Z;
  remote_methods : gmap string callback;
  iostream : option IOStream;
  init_cb : bool;
  heap : gmap Z BaseRequest;
  spawned : list Z;
  connect_timers : nat;
  trace : list effect
}.

(** [Server.__init__] followed by [Server.start], which spawns the first
    [_connect_klippy]. *)
Definition init_server : Server :=
  {| init_list := [];
     klippy_state := JStr "disconnected";
     all_subscriptions := ∅;
     pending_requests := ∅;
     remote_methods :=
       <["process_gcode_response" := process_gcode_response]>
         {["process_status_update" := process_status_update]};
     iostream := None;
     init_cb := false;
     heap := ∅;
     spawned := [];
     connect_timers := 1;
     trace := [] |}.

(** [Server.register_remote_method]: a name already registered is kept. *)
Definition register_remote_method (method_name : string) (cb : callback)
    (s : Server) : Server :=
  match remote_methods s !! method_name with
  | Some _ => s
  | None =>
      {| init_list := init_list s; klippy_state := klippy_state s;
         all_subscriptions := all_subscriptions s;
         pending_requests := pending_requests s;
         remote_methods := <[method_name := cb]> (remote_methods s);
         iostream := iostream s; init_cb := init_cb s; heap := heap s;
         spawned := spawned s; connect_timers := connect_timers s;
         trace := trace s |}
  end.

(** [Server.send_event]: every handler of the event is spawned with the
    arguments; the model records the publication. *)
Definition send_event (event : string) (args : list json) (s : Server)
    : Server :=
  {| init_list := init_list s; klippy_state := klippy_state s;
     all_subscriptions := all_subscriptions s;
     pending_requests := pending_requests s;
     remote_methods := remote_methods s;
     iostream := iostream s; init_cb := init_cb s; heap := heap s;
     spawned := spawned s; connect_timers := connect_timers s;
     trace := trace s ++ [Event event args] |}.

Definition set_klippy_state (state : json) (s : Server) : Server :=
  {| init_list := init_list s; klippy_state := state;
     all_subscriptions := all_subscriptions s;
     pending_requests := pending_requests s;
     remote_methods := remote_methods s;
     iostream := iostream s; init_cb := init_cb s; heap := heap s;
     spawned := spawned s; connect_timers := connect_timers s;
     trace := trace s |}.

(** [Server._process_gcode_response]. *)
Definition _process_gcode_response (response : json) (s : Server) : Server :=
  send_event "server:gcode_response" [response] s.

Definition is_webhooks (v : json) : bool :=
  match v with
  | JStr s => String.eqb s "webhooks"
  | _ => false
  end.

(** [Server._process_status_update].  [None] stands for the TypeError or
    AttributeError Python raises on a [status] that cannot be searched or
    whose ['webhooks'] entry is not a dictionary; it is raised before the
    server is changed. *)
Definition _process_status_update (eventtime status : json) (s : Server)
    : option Server :=
  let publish := send_event "server:status_update" [status] in
  match status with
  | JObj m =>
      match m !! "webhooks" with
      | None => Some (publish s)
      | Some (JObj webhooks) =>
          match default JNull (webhooks !! "state") with
          | JNull => Some (publish s)
          | state =>
              let s1 :=
                match state with
                | JStr "shutdown" => send_event "server:klippy_shutdown" [] s
                | _ => s
                end in
              Some (publish (set_klippy_state state s1))
          end
      | Some _ => None
      end
  | JArr l => if existsb is_webhooks l then None else Some (publish s)
  | JStr str =>
      match String.index 0 "webhooks" str with
      | Some _ => None
      | None => Some (publish s)
      end
  | _ => None
  end.

(** The call of [cb] with [params] unpacked: the entries of [params] are
    passed by keyword, so they must name exactly the parameters of the
    callback; otherwise
    Python raises TypeError ([None]) and nothing has changed. *)
Definition call (cb : callback) (params : json) (s : Server)
    : option Server :=
  match params with
  | JObj kwargs =>
      match cb with
      | process_gcode_response =>
          match kwargs !! "response" with
          | Some response =>
              if bool_decide (size kwargs = 1%nat)
              then Some (_process_gcode_response response s)
              else None
          | None => None
          end
      | process_status_update =>
          match kwargs !! "eventtime", kwargs !! "status" with
          | Some eventtime, Some status =>
              if bool_decide (size kwargs = 2%nat)
              then _process_status_update eventtime status s
              else None
          | _, _ => None
          end
      | plugin_method name =>
          Some {| init_list := init_list s; klippy_state := klippy_state s;
                  all_subscriptions := all_subscriptions s;
                  pending_requests := pending_requests s;
                  remote_methods := remote_methods s;
                  iostream := iostream s; init_cb := init_cb s;
                  heap := heap s; spawned := spawned s;
                  connect_timers := connect_timers s;
                  trace := trace s ++ [PluginCall name kwargs] |}
      end
  | _ => None
  end.

(** [self.remote_methods.get(method, None)]: the table has string keys,
    so only a string can be found in it. *)
Definition lookup_method (methods : gmap string callback) (method : json)
    : option callback :=
  match method with
  | JStr name => methods !! name
  | _ => None
  end.

(** The dictionary key a decoded ['id'] denotes among integer keys: an
    integer is itself, and Python's [True] and [False] hash and compare
    as [1] and [0].  No other document equals an integer key. *)
Definition request_key (req_id : json) : option Z :=
  match req_id with
  | JInt z => Some z
  | JBool b => Some (if b then 1 else 0)
  | _ => None
  end.

(** The registry after [self.pending_requests.pop(req_id, None)]. *)
Definition pop (req_id : json) (requests : gmap Z Z) : gmap Z Z :=
  match request_key req_id with
  | Some k => delete k requests
  | None => requests
  end.

Definition klippy_disconnected : response_value :=
  Error (mkServerError (JStr "Klippy Disconnected") 503).

Definition klippy_not_connected : response_value :=
  Error (mkServerError (JStr "Klippy Host not connected") 503).

(** The value [process_command] passes to [notify] (lines 175-181). *)
Definition command_result (cmd : gmap string json) : response_value :=
  match cmd !! "result" with
  | Some result => Payload (if truthy result then result else JStr "ok")
  | None =>
      let err := default (JStr "Malformed Klippy Response") (cmd !! "error") in
      Error (mkServerError err 400)
  end.

(** [Server.process_command], called with each decoded frame.  An
    exception raised by a callback is caught and logged by
    [_read_stream]; the server is as before. *)
Definition process_command (cmd : gmap string json) (s : Server) : Server :=
  match default JNull (cmd !! "method") with
  | JNull =>
      let req_id := default JNull (cmd !! "id") in
      match request_key req_id ≫= λ k, pending_requests s !! k with
      | None => s
      | Some request =>
          {| init_list := init_list s; klippy_state := klippy_state s;
             all_subscriptions := all_subscriptions s;
             pending_requests := pop req_id (pending_requests s);
             remote_methods := remote_methods s;
             iostream := iostream s; init_cb := init_cb s;
             heap := alter (notify (command_result cmd)) request (heap s);
             spawned := spawned s; connect_timers := connect_timers s;
             trace := trace s |}
      end
  | method =>
      match lookup_method (remote_methods s) method with
      | Some cb =>
          let params := default (JObj ∅) (cmd !! "params") in
          default s (call cb params s)
      | None => s
      end
  end.

(** The loop of [on_connection_closed] over
    [self.pending_requests.values()]. *)
Definition notify_all (resp : response_value) (requests : gmap Z Z)
    (h : gmap Z BaseRequest) : gmap Z BaseRequest :=
  map_fold (λ _ request h, alter (notify resp) request h) h requests.

(** [Server.on_connection_closed], the close callback of the stream. *)
Definition on_connection_closed (s : Server) : Server :=
  {| init_list := [];
     klippy_state := JStr "disconnected";
     all_subscriptions := all_subscriptions s;
     pending_requests := ∅;
     remote_methods := remote_methods s;
     iostream := iostream s;
     init_cb := false;
     heap := notify_all klippy_disconnected (pending_requests s) (heap s);
     spawned := spawned s;
     connect_timers := S (connect_timers s);
     trace := trace s ++ [Event "server:klippy_disconnect" []] |}.

(** The rewriting of [params] for a subscription (lines 311-323): the
    updated table and the parameters to send.  [None] when
    [params['objects']] does not have the documented shape. *)
Definition subscribe_params (all_subscriptions : subscriptions)
    (params : gmap string json)
    : option (subscriptions * gmap string json) :=
  objects ← decode_objects (default (JObj ∅) (params !! "objects"));
  let all_subscriptions := merge_subscriptions all_subscriptions objects in
  Some (all_subscriptions,
        <["response_template" :=
            JObj {["method" := JStr "process_status_update"]}]>
          (<["objects" := encode_objects all_subscriptions]> params)).

(** [Server.make_request] up to its [await]: the request object is
    allocated at address [self], registered, and its transmission is
    spawned.  The caller then waits on the request, see
    [make_request_result]. *)
Definition make_request (rpc_method : string) (params : gmap string json)
    (self : Z) (s : Server) : option Server :=
  '(subs, params) ←
    (if String.eqb rpc_method "objects/subscribe"
     then subscribe_params (all_subscriptions s) params
     else Some (all_subscriptions s, params));
  let base_request := new_request self rpc_method params in
  Some {| init_list := init_list s; klippy_state := klippy_state s;
          all_subscriptions := subs;
          pending_requests :=
            <[id base_request := self]> (pending_requests s);
          remote_methods := remote_methods s;
          iostream := iostream s; init_cb := init_cb s;
          heap := <[self := base_request]> (heap s);
          spawned := spawned s ++ [self];
          connect_timers := connect_timers s;
          trace := trace s |}.

(** What the caller of [make_request] gets for the request at address
    [request]: nothing while it is suspended, then the outcome of
    [wait]. *)
Definition make_request_result (request : Z) (s : Server) : option outcome :=
  heap s !! request ≫= wait.

Definition set_heap (h : gmap Z BaseRequest) (s : Server) : Server :=
  {| init_list := init_list s; klippy_state := klippy_state s;
     all_subscriptions := all_subscriptions s;
     pending_requests := pending_requests s;
     remote_methods := remote_methods s;
     iostream := iostream s; init_cb := init_cb s; heap := h;
     spawned := spawned s; connect_timers := connect_timers s;
     trace := trace s |}.

(** [KlippyConnection.send_request] for the request at address
    [request]: writing to a closed stream raises StreamClosedError. *)
Definition send_request (request : Z) (s : Server) : Server :=
  match iostream s with
  | None => set_heap (alter (notify klippy_not_connected) request (heap s)) s
  | Some stream =>
      if closed stream
      then set_heap (alter (notify klippy_not_connected) request (heap s)) s
      else
        match heap s !! request with
        | Some r =>
            {| init_list := init_list s; klippy_state := klippy_state s;
               all_subscriptions := all_subscriptions s;
               pending_requests := pending_requests s;
               remote_methods := remote_methods s;
               iostream := iostream s; init_cb := init_cb s;
               heap := heap s; spawned := spawned s;
               connect_timers := connect_timers s;
               trace := trace s ++ [Written (to_dict r)] |}
        | None => s
        end
  end.

(** [Server._connect_klippy] run from a timer: [ok] tells whether
    [KlippyConnection.connect] succeeds.  On failure it is scheduled
    again; on success the new stream is installed and the periodic
    initialization starts. *)
Definition _connect_klippy (ok : bool) (s : Server) : option Server :=
  match connect_timers s with
  | O => None
  | S timers =>
      Some {| init_list := init_list s; klippy_state := klippy_state s;
              all_subscriptions := all_subscriptions s;
              pending_requests := pending_requests s;
              remote_methods := remote_methods s;
              iostream := if ok then Some (mkIOStream false) else iostream s;
              init_cb := if ok then true else init_cb s;
              heap := heap s; spawned := spawned s;
              connect_timers := if ok then timers else S timers;
              trace := trace s |}
  end.

(** The stream is closed by the peer: it is marked closed and its close
    callback runs. *)
Definition stream_closed (s : Server) : option Server :=
  match iostream s with
  | Some stream =>
      if closed stream then None
      else
        Some (on_connection_closed
          {| init_list := init_list s; klippy_state := klippy_state s;
             all_subscriptions := all_subscriptions s;
             pending_requests := pending_requests s;
             remote_methods := remote_methods s;
             iostream := Some (mkIOStream true); init_cb := init_cb s;
             heap := heap s; spawned := spawned s;
             connect_timers := connect_timers s;
             trace := trace s |})
  | None => None
  end.

(** ** The event loop *)

(** What can happen next.
    - [MakeRequest m p a]: a caller runs [make_request(m, p)] and the new
      request object is allocated at address [a];
    - [SendRequest]: the loop runs the oldest spawned [send_request];
    - [Receive cmd]: [_read_stream] decoded the dictionary [cmd];
    - [Connect ok]: a scheduled [_connect_klippy] runs;
    - [StreamClosed]: the connection to Klippy is lost;
    - [Release a]: the request at [a] is garbage collected;
    - [RegisterRemoteMethod n]: a plugin registers a remote method. *)
Inductive event : Type :=
  | MakeRequest (rpc_method : string) (params : gmap string json) (self : Z)
  | SendRequest
  | Receive (cmd : gmap string json)
  | Connect (ok : bool)
  | StreamClosed
  | Release (request : Z)
  | RegisterRemoteMethod (method_name : string).

(** The request at [a] is referenced by the server or by a caller still
    waiting for it. *)
Definition referenced (a : Z) (s : Server) : bool :=
  bool_decide (map_Exists (λ _ request, request = a) (pending_requests s))
  || bool_decide (a ∈ spawned s)
  || match heap s !! a with
     | Some r => negb (_event r)
     | None => false
     end.

(** One turn of the loop; [None] when the event cannot happen in [s].
    An address handed out by the allocator is not that of a live object,
    the objects of a subscription have the shape [decode_objects] reads,
    frames are read from an open stream only, and only an object that is
    no longer referenced is released. *)
Definition step (e : event) (s : Server) : option Server :=
  match e with
  | MakeRequest rpc_method params self =>
      match heap s !! self with
      | Some _ => None
      | None => make_request rpc_method params self s
      end
  | SendRequest =>
      match spawned s with
      | [] => None
      | request :: rest =>
          Some (send_request request
            {| init_list := init_list s; klippy_state := klippy_state s;
               all_subscriptions := all_subscriptions s;
               pending_requests := pending_requests s;
               remote_methods := remote_methods s;
               iostream := iostream s; init_cb := init_cb s;
               heap := heap s; spawned := rest;
               connect_timers := connect_timers s;
               trace := trace s |})
      end
  | Receive cmd =>
      match iostream s with
      | Some stream =>
          if closed stream then None else Some (process_command cmd s)
      | None => None
      end
  | Connect ok => _connect_klippy ok s
  | StreamClosed => stream_closed s
  | Release request =>
      match heap s !! request with
      | Some _ =>
          if referenced request s then None
          else Some (set_heap (delete request (heap s)) s)
      | None => None
      end
  | RegisterRemoteMethod method_name =>
      Some (register_remote_method method_name (plugin_method method_name) s)
  end.

(** A sequence of events from a state. *)
Fixpoint run (events : list event) (s : Server) : option Server :=
  match events with
  | [] => Some s
  | e :: events => step e s ≫= run events
  end.

(** The states the server can be in. *)
Definition reachable (s : Server) : Prop :=
  ∃ events, run events init_server = Some s.

(** The ids given to the requests created during [events], oldest
    first. *)
Definition created_ids (events : list event) : list Z :=
  omap (λ e, match e with MakeRequest _ _ self => Some self | _ => None end)
       events.

(** What holds of the registry and the heap in every reachable state:
    a request is registered under its own address, a live request
    carries its address as id, and a request nobody has notified is
    still registered. *)
Record registry_ok (s : Server) : Prop := mkRegistryOk {
  registered_self : ∀ k a, pending_requests s !! k = Some a → k = a;
  registered_live : ∀ a, pending_requests s !! a = Some a →
                         is_Some (heap s !! a);
  live_id : ∀ a r, heap s !! a = Some r → id r = a;
  unresolved_registered : ∀ a r, heap s !! a = Some r → notified r = [] →
                                 pending_requests s !! a = Some a;
  event_notified : ∀ a r, heap s !! a = Some r →
                          (_event r = true ↔ notified r ≠ [])
}.

(** ** Scenarios *)

(** The parameters of a subscription to the position of the toolhead. *)
Definition subscribe_toolhead : gmap string json :=
  {["objects" := JObj {["toolhead" := JArr [JStr "position"]]}]}.

(** The parameters of a subscription to object "A" with the empty list
    of fields. *)
Definition subscribe_empty_fields : gmap string json :=
  {["objects" := JObj {["A" := JArr []]}]}.

(** A connected server with the request "info" pending at address 100
    and already written to the stream. *)
Definition one_pending : Server :=
  default init_server
    (run [MakeRequest "info" ∅ 100; Connect true; SendRequest] init_server).

Definition info_request : BaseRequest := new_request 100 "info" ∅.

(** A connected server with two requests written and pending, as in
    scenario 5 of the specification. *)
Definition two_pending_trace : list event :=
  [Connect true; MakeRequest "info" ∅ 100; MakeRequest "objects/list" ∅ 200;
   SendRequest; SendRequest].

Definition two_pending : Server :=
  default init_server (run two_pending_trace init_server).

Definition two_pending_closed : Server :=
  default init_server (step StreamClosed two_pending).

(** A server in the middle of a connection epoch: Klippy is ready, both
    mandatory subscriptions are made and a client has subscribed to the
    toolhead. *)
Definition ready_server : Server :=
  {| init_list := ["klippy_ready"; "webhooks_sub"; "gcode_output_sub"]%string;
     klippy_state := JStr "ready";
     all_subscriptions :=
       <["webhooks" := None]> {["toolhead" := Some ["position"%string]]};
     pending_requests := ∅;
     remote_methods := remote_methods init_server;
     iostream := Some (mkIOStream false);
     init_cb := false;
     heap := ∅;
     spawned := [];
     connect_timers := 0;
     trace := [] |}.

(** A request is answered and released, and the next request is
    allocated at the address that became free. *)
Definition id_reuse_trace : list event :=
  [Connect true; MakeRequest "info" ∅ 100; SendRequest;
   Receive (<["id" := JInt 100]> {["result" := JObj ∅]});
   Release 100; MakeRequest "objects/list" ∅ 100].

(** Two requests, the second allocated below the first. *)
Definition id_decreasing_trace : list event :=
  [MakeRequest "info" ∅ 200; MakeRequest "objects/list" ∅ 100].

(** ** Further invariants of the event loop *)

(** Exactly one [_connect_klippy] is scheduled while there is no open
    stream, and none while there is one. *)
Definition connection_ok (s : Server) : Prop :=
  match iostream s with
  | Some stream => connect_timers s = if closed stream then 1%nat else 0%nat
  | None => connect_timers s = 1%nat
  end.

(** The spawned [send_request] callbacks hold distinct live requests. *)
Definition spawned_ok (s : Server) : Prop :=
  NoDup (spawned s) ∧ ∀ a, a ∈ spawned s → is_Some (heap s !! a).

(** [resp] is what [process_command] passes to [notify] for some frame
    that is handled as a response and whose id denotes the key [a]. *)
Definition from_own_response (a : Z) (resp : response_value) : Prop :=
  ∃ cmd : gmap string json,
    default JNull (cmd !! "method") = JNull ∧
    request_key (default JNull (cmd !! "id")) = Some a ∧
    resp = command_result cmd.

(** The three ways the request at [a] is ever notified. *)
Definition resolution_ok (a : Z) (resp : response_value) : Prop :=
  resp = klippy_not_connected ∨ resp = klippy_disconnected ∨
  from_own_response a resp.

(** The [response] slot of the request at [a] is [None] until the first
    [notify] and the argument of the latest [notify] afterwards, and
    every [notify] was one of the three above. *)
Definition request_ok (a : Z) (r : BaseRequest) : Prop :=
  response r = default (Payload JNull) (last (notified r)) ∧
  Forall (resolution_ok a) (notified r).

(** [fields_le f g]: the entry [g] asks for at least the fields of [f]. *)
Definition fields_le (f g : fields) : Prop :=
  match f, g with
  | _, None => True
  | Some l, Some k => l ⊆ k
  | None, Some _ => False
  end.

(** [u] has every object of [t], each with at least the fields it has
    in [t]. *)
Definition table_le (t u : subscriptions) : Prop :=
  ∀ obj f, t !! obj = Some f → ∃ g, u !! obj = Some g ∧ fields_le f g.

(** ** The event bus (register_event_handler, send_event) *)

(** [self.events]: the handlers of each event, in registration order.
    [H] is the type of callbacks. *)
Abbreviation event_handlers H := (gmap string (list H)).

(** [Server.register_event_handler]:
    [self.events.setdefault(event, []).append(callback)]. *)
Definition register_event_handler {H} (event : string) (callback : H)
    (events : event_handlers H) : event_handlers H :=
  <[event := default [] (events !! event) ++ [callback]]> events.

(** The callbacks [Server.send_event] hands to [ioloop.spawn_callback],
    each with the arguments of the event, in the order of the loop over
    [self.events.get(event, [])]. *)
Definition send_event_spawns {H} (events : event_handlers H) (event : string)
    (args : list json) : list (H * list json) :=
  (λ evt, (evt, args)) <$> default [] (events !! event).

(** A sequence of registrations, oldest first. *)
Definition register_all {H} (registrations : list (string * H))
    (events : event_handlers H) : event_handlers H :=
  foldl (λ events r, register_event_handler r.1 r.2 events) events
        registrations.

(** ** The plugin registry (load_plugin, lookup_plugin, _load_plugins) *)

(** What a call that hands back a plugin can give: a plugin, the
    caller's [default], a [ServerError] with the given message, or the
    exception raised by [importlib.import_module]. *)
Inductive plugin_result (P D : Type) : Type :=
  | Plugin (plugin : P)
  | Default (default : D)
  | RaiseServerError (msg : string)
  | RaiseImportError.
Arguments Plugin {P D} plugin.
Arguments Default {P D} default.
Arguments RaiseServerError {P D} msg.
Arguments RaiseImportError {P D}.

(** [Server.lookup_plugin].  The parameter [default] is [None] when the
    caller passes none (Python's [Sentinel]). *)
Definition lookup_plugin {P D} (plugins : gmap string P)
    (plugin_name : string) (default : option D) : plugin_result P D :=
  match plugins !! plugin_name with
  | Some plugin => Plugin plugin
  | None =>
      match default with
      | Some d => Default d
      | None =>
          RaiseServerError ("Plugin (" +:+ plugin_name +:+ ") not found")
      end
  end.

(** What the file system and the import machinery hold for a plugin
    name: no file [plugins/<name>.py]; a file whose import raises; a
    module whose [load_plugin] is missing or raises; a module whose
    [load_plugin(config)] returns a plugin. *)
Inductive plugin_module (P : Type) : Type :=
  | NoFile
  | ImportRaises
  | LoadRaises
  | Loads (plugin : P).
Arguments NoFile {P}.
Arguments ImportRaises {P}.
Arguments LoadRaises {P}.
Arguments Loads {P} plugin.

(** [Server.load_plugin]: the result and the registry afterwards. *)
Definition load_plugin {P D} (modules : string → plugin_module P)
    (plugin_name : string) (default : option D) (plugins : gmap string P)
    : plugin_result P D * gmap string P :=
  match plugins !! plugin_name with
  | Some plugin => (Plugin plugin, plugins)
  | None =>
      let failed (msg : string) : plugin_result P D :=
        match default with
        | None => RaiseServerError msg
        | Some d => Default d
        end in
      match modules plugin_name with
      | NoFile =>
          (failed ("Plugin (" +:+ plugin_name +:+ ") does not exist"), plugins)
      | ImportRaises => (RaiseImportError, plugins)
      | LoadRaises =>
          (failed ("Unable to load plugin (" +:+ plugin_name +:+ ")"), plugins)
      | Loads plugin => (Plugin plugin, <[plugin_name := plugin]> plugins)
      end
  end.

Definition CORE_PLUGINS : list string :=
  ["file_manager"; "klippy_apis"; "machine"; "temperature_store";
   "shell_command"].

(** Whether a call raised. *)
Definition raised {P D} (r : plugin_result P D) : bool :=
  match r with
  | RaiseServerError _ | RaiseImportError => true
  | _ => false
  end.

(** A loop of [load_plugin] calls that stops at the first exception:
    [None] when one was raised. *)
Fixpoint load_each {P} (modules : string → plugin_module P)
    (default : option unit) (names : list string) (plugins : gmap string P)
    : option (gmap string P) :=
  match names with
  | [] => Some plugins
  | plugin_name :: names =>
      let '(r, plugins) := load_plugin modules plugin_name default plugins in
      if raised r then None else load_each modules default names plugins
  end.

(** [Server._load_plugins] for the configuration sections [sections]:
    the core plugins are loaded without a default, then every section
    other than 'server', 'authorization' and 'cmd_args' with the default
    [None].  Python lists the set of optional sections in an unspecified
    order; [elements] fixes one. *)
Definition _load_plugins {P} (modules : string → plugin_module P)
    (sections : list string) (plugins : gmap string P)
    : option (gmap string P) :=
  plugins ← load_each modules None CORE_PLUGINS plugins;
  let opt_sections : gset string :=
    list_to_set sections ∖ list_to_set ["server"; "authorization"; "cmd_args"]
  in
  load_each modules (Some ()) (elements opt_sections) plugins.

(** ** Framing on the stream (send_request, _read_stream) *)

From Stdlib Require Import Strings.Byte.

#[global] Instance byte_eq_decision : EqDecision byte := Byte.byte_eq_dec.

(** What [send_request] writes for an encoded request:
    [data.encode() + b"\\x03"]. *)
Definition frame (payload : list byte) : list byte := payload ++ [x03].

(** [IOStream.read_until(b'\\x03')] on the bytes received so far: the
    bytes up to and including the first 0x03, and the bytes left in the
    buffer; [None] while no 0x03 has arrived (the read stays
    pending). *)
Fixpoint read_until (buffer : list byte) : option (list byte * list byte) :=
  match buffer with
  | [] => None
  | b :: buffer =>
      if decide (b = x03) then Some ([b], buffer)
      else '(data, rest) ← read_until buffer; Some (b :: data, rest)
  end.

(** The loop of [_read_stream], at most [fuel] turns: each turn reads
    one frame and keeps [data[:-1]]; the result is the payloads read and
    the bytes still buffered. *)
Fixpoint read_frames (fuel : nat) (buffer : list byte)
    : list (list byte) * list byte :=
  match fuel with
  | O => ([], buffer)
  | S fuel =>
      match read_until buffer with
      | None => ([], buffer)
      | Some (data, rest) =>
          let '(payloads, buffered) := read_frames fuel rest in
          (removelast data :: payloads, buffered)
      end
  end.

(** What [_read_stream] does with one payload: [loads] stands for
    [json.loads] followed by the test that the document is a dictionary
    (on anything else [process_command] raises at [cmd.get]); a payload
    it rejects is logged and skipped. *)
Definition on_recd (loads : list byte → option (gmap string json))
    (payload : list byte) (s : Server) : Server :=
  match loads payload with
  | Some decoded_cmd => process_command decoded_cmd s
  | None => s
  end.

(** [KlippyConnection._read_stream] on the bytes received: every
    complete frame is decoded and processed, in order.  A frame has at
    least one byte, so [length buffer] turns are enough. *)
Definition _read_stream (loads : list byte → option (gmap string json))
    (buffer : list byte) (s : Server) : Server * list byte :=
  let '(payloads, buffered) := read_frames (length buffer) buffer in
  (foldl (λ s payload, on_recd loads payload s) s payloads, buffered).

(** ** The readiness sequence (_initialize and the functions it awaits) *)

(** One run of [Server._initialize], as a function of what the awaited
    [klippy_apis] calls give.  The plugin [klippy_apis] is not part of
    the core, so the outcome of each of its calls is a parameter.  The
    state holds the attributes this code assigns and the calls it makes
    to its collaborators; it describes a run during which no other
    callback assigns these attributes.  The file manager is a core
    plugin, which [_load_plugins] has loaded once the server is
    constructed, so [lookup_plugin('file_manager')] returns it; the
    calls to the file manager, the application and the event bus are
    taken to return. *)
Module Readiness.

(** The Python exceptions, other than [ServerError], this code can
    raise. *)
Inductive exception : Type :=
  | KeyError (key : string)
  | TypeError
  | AttributeError.

(** Calls to the file manager, the application and the event bus. *)
Inductive call : Type :=
  | update_fixed_paths (fixed_paths : gmap string json)
  | register_directory (name : string) (path : json) (can_delete : bool)
  | register_remote_handler (ep : json)
  | send_event (event : string).

Record state : Type := mkState {
  init_list : list string;
  klippy_state : json;
  init_cb : bool;
  calls : list call
}.

(** What the awaited calls give in this run:
    - [get_klippy_info()] raises a [ServerError] or returns a
      dictionary;
    - [get_object_list(default=None)], [query_objects({'configfile':
      None}, default=None)] and [list_endpoints(default=None)] return
      [None] or their result;
    - [subscribe_objects({'webhooks': None})] and
      [subscribe_gcode_output()] raise a [ServerError] ([Some]) or
      succeed ([None]). *)
Record klippy_apis : Type := mkApis {
  get_klippy_info : ServerError + gmap string json;
  get_object_list : option (list string);
  query_objects : option (gmap string json);
  list_endpoints : option (gmap string json);
  subscribe_objects : option ServerError;
  subscribe_gcode_output : option ServerError
}.

Definition add_call (c : call) (st : state) : state :=
  {| init_list := init_list st; klippy_state := klippy_state st;
     init_cb := init_cb st; calls := calls st ++ [c] |}.

Definition append_init_list (milestone : string) (st : state) : state :=
  {| init_list := init_list st ++ [milestone];
     klippy_state := klippy_state st;
     init_cb := init_cb st; calls := calls st |}.

(** [v.get(key, fallback)]: AttributeError unless [v] is a dictionary. *)
Definition py_get (v : json) (key : string) (fallback : json)
    : exception + json :=
  match v with
  | JObj m => inr (default fallback (m !! key))
  | _ => inl AttributeError
  end.

(** The path of the virtual SD card in the answer to the configfile
    query:
    [result.get('configfile', {}).get('config', {})
           .get('virtual_sdcard', {}).get('path', None)]. *)
Definition vsd_path (result : gmap string json) : exception + json :=
  match py_get (default (JObj ∅) (result !! "configfile")) "config" (JObj ∅) with
  | inl e => inl e
  | inr config =>
      match py_get config "virtual_sdcard" (JObj ∅) with
      | inl e => inl e
      | inr vsd_config => py_get vsd_config "path" JNull
      end
  end.

Definition req_objs : gset string :=
  list_to_set ["virtual_sdcard"; "display_status"; "pause_resume"].

(** [req_objs - set(result)]. *)
Definition missing_objs (result : list string) : gset string :=
  req_objs ∖ list_to_set result.

(** [Server._verify_klippy_requirements]: the state afterwards and the
    exception raised, if any.  Missing objects are only logged. *)
Definition _verify_klippy_requirements (apis : klippy_apis) (st : state)
    : state * option exception :=
  match get_object_list apis with
  | None => (st, None)
  | Some result =>
      if decide ("virtual_sdcard" ∈ missing_objs result) then (st, None)
      else
        match query_objects apis with
        | None => (st, None)
        | Some result =>
            match vsd_path result with
            | inl e => (st, Some e)
            | inr JNull => (st, None)
            | inr path => (add_call (register_directory "gcodes" path true) st,
                           None)
            end
        end
  end.

(** [{k: result[k] for k in keys}]: KeyError at the first missing
    key. *)
Fixpoint fixed_paths (keys : list string) (result : gmap string json)
    : exception + gmap string json :=
  match keys with
  | [] => inr ∅
  | k :: keys =>
      match result !! k with
      | None => inl (KeyError k)
      | Some v =>
          match fixed_paths keys result with
          | inl e => inl e
          | inr paths => inr (<[k := v]> paths)
          end
      end
  end.

Definition path_keys : list string :=
  ["klipper_path"; "python_path"; "log_file"; "config_file"].

Definition is_ready (state : json) : bool :=
  match state with
  | JStr "ready" => true
  | _ => false
  end.

(** [Server._check_ready]. *)
Definition _check_ready (apis : klippy_apis) (st : state)
    : state * option exception :=
  match get_klippy_info apis with
  | inl _ => (st, None)
  | inr result =>
      match fixed_paths path_keys result with
      | inl e => (st, Some e)
      | inr paths =>
          let st := add_call (update_fixed_paths paths) st in
          if is_ready (default (JStr "") (result !! "state")) then
            match _verify_klippy_requirements apis st with
            | (st, Some e) => (st, Some e)
            | (st, None) =>
                (add_call (send_event "server:klippy_ready")
                   {| init_list := init_list st ++ ["klippy_ready"];
                      klippy_state := JStr "ready";
                      init_cb := init_cb st; calls := calls st |},
                 None)
            end
          else
            (* the message is concatenated to a string before it is logged *)
            match default (JStr "Klippy Not Ready")
                    (result !! "state_message") with
            | JStr _ => (st, None)
            | _ => (st, Some TypeError)
            end
      end
  end.

(** The values of [for ep in endpoints]: the keys of a dictionary (in an
    order the model fixes with [elements]), the items of a list, the
    characters of a string; TypeError ([None]) on anything else. *)
Definition iterate (endpoints : json) : option (list json) :=
  match endpoints with
  | JObj m => Some (JStr <$> elements (dom m))
  | JArr l => Some l
  | JStr str => Some ((λ c, JStr (String c "")) <$> String.list_ascii_of_string str)
  | _ => None
  end.

(** [Server._request_endpoints]. *)
Definition _request_endpoints (apis : klippy_apis) (st : state)
    : state * option exception :=
  match list_endpoints apis with
  | None => (st, None)
  | Some result =>
      match iterate (default (JObj ∅) (result !! "endpoints")) with
      | None => (st, Some TypeError)
      | Some eps =>
          (foldl (λ st ep, add_call (register_remote_handler ep) st) st eps,
           None)
      end
  end.

(** One of the two subscriptions of [_initialize]: attempted only when
    its milestone is missing, recorded only when it succeeds. *)
Definition subscribe_once (milestone : string) (outcome : option ServerError)
    (st : state) : state :=
  if bool_decide (milestone ∈ init_list st) then st
  else match outcome with
       | Some _ => st
       | None => append_init_list milestone st
       end.

(** [Server._initialize]. *)
Definition _initialize (apis : klippy_apis) (st : state)
    : state * option exception :=
  match _check_ready apis st with
  | (st, Some e) => (st, Some e)
  | (st, None) =>
      match _request_endpoints apis st with
      | (st, Some e) => (st, Some e)
      | (st, None) =>
          let st := subscribe_once "webhooks_sub" (subscribe_objects apis) st in
          let st := subscribe_once "gcode_output_sub"
                      (subscribe_gcode_output apis) st in
          if bool_decide ("klippy_ready" ∈ init_list st)
          then ({| init_list := init_list st;
                   klippy_state := klippy_state st;
                   init_cb := false; calls := calls st |}, None)
          else (st, None)
      end
  end.

End Readiness.

(** Klippy is ready and has a virtual SD card; the webhooks
    subscription fails. *)
Definition ready_apis : Readiness.klippy_apis :=
  {| Readiness.get_klippy_info :=
       inr (<["state" := JStr "ready"]>
            (<["klipper_path" := JStr "/home/pi/klipper"]>
             (<["python_path" := JStr "/home/pi/klippy-env/bin/python"]>
              (<["log_file" := JStr "/tmp/klippy.log"]>
               {["config_file" := JStr "/home/pi/printer.cfg"]}))));
     Readiness.get_object_list := Some ["virtual_sdcard"; "toolhead"]%string;
     Readiness.query_objects :=
       Some {["configfile" :=
                JObj {["config" :=
                  JObj {["virtual_sdcard" :=
                    JObj {["path" := JStr "/home/pi/sdcard"]}]}]}]};
     Readiness.list_endpoints := None;
     Readiness.subscribe_objects :=
       Some (mkServerError (JStr "Klippy Host not connected") 503);
     Readiness.subscribe_gcode_output := None |}.

(** The readiness attributes right after a connection. *)
Definition connected_state : Readiness.state :=
  {| Readiness.init_list := []; Readiness.klippy_state := JStr "disconnected";
     Readiness.init_cb := true; Readiness.calls := [] |}.


(** ** The GPIO power plugin (plugins/power.py) *)

From Stdlib Require Import Ascii DecimalString DecimalN.

(** The plugin as a caller of the core: it registers the remote method
    [set_device_power], publishes "gpio_power:power_changed" and raises
    [server.error].  The GPIO lines are hardware: whether an operation on
    a line succeeds, and the value read from it, are parameters. *)
Module Power.

(** [c.lower()] for an ASCII letter; other bytes are left alone. *)
Definition lower_ascii (c : ascii) : ascii :=
  let n := nat_of_ascii c in
  if (65 <=? n)%nat && (n <=? 90)%nat then ascii_of_nat (n + 32) else c.

(** [str.lower()] on ASCII text.  On other text Python lowers more
    characters, none of them to an ASCII letter of "on", "off", "true"
    or "false", the only strings the result is compared with. *)
Fixpoint lower (s : string) : string :=
  match s with
  | EmptyString => EmptyString
  | String c s => String (lower_ascii c) (lower s)
  end.

(** The status [set_device_power] computes from the [state] Klippy
    sent: [None] when it logs "Invalid state received". *)
Definition power_status (state : json) : option string :=
  let status : option string :=
    match state with
    | JBool b => Some (if b then "on" else "off")
    | JStr str =>
        let status := lower str in
        if bool_decide (status ∈ ["true"; "false"])
        then Some (if String.eqb status "true" then "on" else "off")
        else Some status
    | _ => None
    end in
  match status with
  | Some status =>
      if bool_decide (status ∈ ["on"; "off"]) then Some status else None
  | None => None
  end.

(** What a call of [set_device_power] does: it hands [_process_request]
    to [spawn_callback] with the device of that name and a request, it
    only logs, or it raises the TypeError of [device not in self.devices]
    on a [device] that cannot be hashed (a list or a dictionary). *)
Inductive power_call : Type :=
  | Spawned (device status : string)
  | Logged
  | RaiseTypeError.

(** [PrinterPower.set_device_power].  The devices are known by name; a
    [device] that is null, a boolean or a number is in no dictionary of
    names. *)
Definition set_device_power {Dev} (device state : json)
    (devices : gmap string Dev) : power_call :=
  match power_status state with
  | None => Logged
  | Some status =>
      match device with
      | JStr name =>
          match devices !! name with
          | Some _ => Spawned name status
          | None => Logged
          end
      | JArr _ | JObj _ => RaiseTypeError
      | _ => Logged
      end
  end.

(** What a request can raise: [server.error(msg)], or the
    AttributeError Python raises when [GpioDevice.set_power] or
    [refresh_status] evaluates [self.server] in its error handler, an
    attribute [GpioDevice] never sets. *)
Inductive exception : Type :=
  | ServerErr (msg : string)
  | AttributeErr.

(** A [GpioDevice]: its name and its state ("init", "on", "off" or
    "error"). *)
Record GpioDevice : Type := mkDevice {
  name : string;
  state : string
}.

(** [GpioDevice.get_device_info]. *)
Definition get_device_info (d : GpioDevice) : gmap string json :=
  <["device" := JStr (name d)]>
    (<["status" := JStr (state d)]> {["type" := JStr "gpio"]}).

(** [GpioDevice.set_power]; [line_ok] tells whether [line.set_value]
    succeeds. *)
Definition set_power (line_ok : bool) (req : string) (d : GpioDevice)
    : GpioDevice * option exception :=
  if line_ok then (mkDevice (name d) req, None)
  else (mkDevice (name d) "error", Some AttributeErr).

(** [GpioDevice.refresh_status]; [value] is what [line.get_value]
    returns, [None] when it raises. *)
Definition refresh_status (value : option bool) (d : GpioDevice)
    : GpioDevice * option exception :=
  match value with
  | Some val => (mkDevice (name d) (if val then "on" else "off"), None)
  | None => (mkDevice (name d) "error", Some AttributeErr)
  end.

(** The lines of the GPIO chips, by device name. *)
Record lines : Type := mkLines {
  set_value_ok : string → bool;
  get_value : string → option bool
}.

(** [PrinterPower._process_request]: the device afterwards, the events
    published, and the status returned or the exception raised. *)
Definition _process_request (hw : lines) (device : GpioDevice) (req : string)
    : GpioDevice * list (string * gmap string json) * (exception + string) :=
  if bool_decide (req ∈ ["on"; "off"]) then
    match set_power (set_value_ok hw (name device)) req device with
    | (device, Some e) => (device, [], inl e)
    | (device, None) =>
        (device, [("gpio_power:power_changed", get_device_info device)],
         inr (state device))
    end
  else if String.eqb req "status" then
    match refresh_status (get_value hw (name device)) device with
    | (device, Some e) => (device, [], inl e)
    | (device, None) => (device, [], inr (state device))
    end
  else (device, [], inl (ServerErr ("Unsupported power request: " +:+ req))).

(** The loop of [_handle_power_request] over the requested names, which
    stops at the first exception: the devices afterwards, the events
    published, and the result or the exception.  [requested] holds the
    device objects found for the names; a request changes the object
    itself, which [devices] holds under the same name. *)
Fixpoint power_requests (hw : lines) (req : string) (args : list string)
    (requested : gmap string GpioDevice) (devices : gmap string GpioDevice)
    (result : gmap string string)
    : gmap string GpioDevice * list (string * gmap string json) *
      (exception + gmap string string) :=
  match args with
  | [] => (devices, [], inr result)
  | k :: args =>
      match requested !! k with
      | None =>
          power_requests hw req args requested devices
            (<[k := "device_not_found"]> result)
      | Some device =>
          match _process_request hw device req with
          | (device, events, inl e) =>
              (<[k := device]> devices, events, inl e)
          | (device, events, inr status) =>
              match power_requests hw req args requested
                      (<[k := device]> devices)
                      (<[k := status]> result) with
              | (devices, events', r) => (devices, events ++ events', r)
              end
          end
      end
  end.

(** The last component of the endpoint path: [ep.split("/")[-1]]. *)
Fixpoint last_component (current ep : string) : string :=
  match ep with
  | EmptyString => current
  | String c ep =>
      if Ascii.eqb c "/" then last_component EmptyString ep
      else last_component (current +:+ String c EmptyString) ep
  end.

(** [PrinterPower._handle_power_request] for the argument names [args]
    (the keys of [web_request.get_args()], in order) and the endpoint
    [ep]. *)
Definition _handle_power_request (hw : lines) (args : list string)
    (ep : string) (devices : gmap string GpioDevice)
    : gmap string GpioDevice * list (string * gmap string json) *
      (exception + gmap string string) :=
  match args with
  | [] => (devices, [], inl (ServerErr "No arguments provided"))
  | _ =>
      let requsted_devs : gmap string GpioDevice :=
        list_to_map (omap (λ k, (k,.) <$> devices !! k) args) in
      let req := last_component EmptyString ep in
      power_requests hw req args requsted_devs devices ∅
  end.

(** What [GpioDevice._parse_pin] gives: the pin number, the chip and
    whether the line is inverted; [config.error]; or the IndexError of
    [pin[0]] on an empty string. *)
Inductive parsed_pin : Type :=
  | Pin (pin : N) (chip_id : string) (invert : bool)
  | ConfigError (msg : string)
  | IndexError.

(** [s.split(sep)]. *)
Fixpoint split (sep : ascii) (s : string) : list string :=
  match s with
  | EmptyString => [EmptyString]
  | String c s =>
      if Ascii.eqb c sep then EmptyString :: split sep s
      else match split sep s with
           | part :: parts => String c part :: parts
           | [] => [String c EmptyString]
           end
  end.

Definition is_digit (c : ascii) : bool :=
  let n := nat_of_ascii c in (48 <=? n)%nat && (n <=? 57)%nat.

(** [s.isdigit()] on ASCII text: not empty, and digits only. *)
Definition isdigit (s : string) : bool :=
  match s with
  | EmptyString => false
  | _ => forallb is_digit (String.list_ascii_of_string s)
  end.

(** [chip_id[-1].isdigit()], used on a string that is not empty. *)
Fixpoint last_isdigit (s : string) : bool :=
  match s with
  | EmptyString => false
  | String c EmptyString => is_digit c
  | String _ s => last_isdigit s
  end.

(** [s[n:]]. *)
Fixpoint drop_chars (n : nat) (s : string) : string :=
  match n, s with
  | O, _ => s
  | S n, String _ s => drop_chars n s
  | S _, EmptyString => EmptyString
  end.

(** [int(s)] on a string of ASCII digits. *)
Definition int (s : string) : N :=
  match NilEmpty.uint_of_string s with
  | Some d => N.of_uint d
  | None => 0%N
  end.

(** The second half of [GpioDevice._parse_pin]: [pin] is the option
    [cfg_pin] without its "!", which is split at "/" and verified. *)
Definition verify_pin (cfg_pin pin : string) (invert : bool) : parsed_pin :=
  let pin_parts := split "/" pin in
  let '(chip_id, pin) :=
    match pin_parts with
    | [chip_id; pin] => (chip_id, pin)
    | [pin] => ("gpiochip0", pin)
    | _ => ("gpiochip0", pin)
    end in
  if negb (String.prefix "gpiochip" chip_id)
     || negb (last_isdigit chip_id)
     || negb (String.prefix "gpio" pin)
     || negb (isdigit (drop_chars 4 pin))
  then ConfigError ("Invalid Power Pin configuration: " +:+ cfg_pin)
  else Pin (int (drop_chars 4 pin)) chip_id invert.

(** [GpioDevice._parse_pin] for the value [cfg_pin] of the option
    'pin', on ASCII text. *)
Definition _parse_pin (cfg_pin : string) : parsed_pin :=
  match cfg_pin with
  | EmptyString => IndexError
  | String c rest =>
      if Ascii.eqb c "!" then verify_pin cfg_pin rest true
      else verify_pin cfg_pin cfg_pin false
  end.


(** The text has no "/". *)
Definition no_slash (s : string) : Prop :=
  Forall (λ c, Ascii.eqb c "/" = false) (String.list_ascii_of_string s).

(** The text is made of ASCII digits. *)
Definition all_digits (s : string) : Prop :=
  Forall (λ c, is_digit c = true) (String.list_ascii_of_string s).

(** The decimal digits of a number. *)
Definition decimal (n : N) : string := NilZero.string_of_uint (N.to_uint n).

(** The text of a pin option: an optional "!", an optional chip
    "gpiochip<c>/", and "gpio<n>". *)
Definition pin_text (invert : bool) (chip : option N) (n : N) : string :=
  (if invert then "!" else "") +:+
  match chip with
  | Some c => "gpiochip" +:+ decimal c +:+ "/"
  | None => ""
  end +:+ "gpio" +:+ decimal n.

End Power.

(** * Properties *)

(** ** Subscription aggregation *)

Lemma uitems_spec (pi items : list string) (x : string) :
  x ∈ uitems pi items ↔ x ∈ pi ∨ x ∈ items.
Proof.
  unfold uitems. rewrite elem_of_elements, elem_of_union.
  by rewrite !elem_of_list_to_set.
Qed.

Lemma uitems_NoDup (pi items : list string) : NoDup (uitems pi items).
Proof. apply NoDup_elements. Qed.

Lemma subscribe_object_lookup obj items subs o :
  subscribe_object obj items subs !! o =
  if decide (obj = o) then merged_entry (subs !! obj) (Some items)
  else subs !! o.
Proof.
  unfold subscribe_object.
  destruct (subs !! obj) as [pi|] eqn:E; rewrite lookup_insert;
    case_decide; subst; simpl; by rewrite ?E.
Qed.

Lemma merge_subscriptions_lookup (subs objects : subscriptions) (obj : string) :
  merge_subscriptions subs objects !! obj =
  merged_entry (subs !! obj) (objects !! obj).
Proof.
  unfold merge_subscriptions.
  apply (map_fold_weak_ind
           (λ r m, r !! obj = merged_entry (subs !! obj) (m !! obj))).
  - by rewrite lookup_empty.
  - intros o items m r Hfresh IH.
    rewrite subscribe_object_lookup, lookup_insert.
    case_decide; subst; [|done].
    rewrite IH, Hfresh. simpl. by destruct (subs !! obj).
Qed.

(** Decides [same_table] goals entry by entry. *)
Ltac same_table_solver :=
  intros obj; rewrite !merge_subscriptions_lookup;
  repeat match goal with
         | |- context [?m !! obj] =>
             is_var m; let E := fresh in destruct (m !! obj) as [[?|]|] eqn:E
         end;
  simpl; try done;
  intros x; rewrite !uitems_spec; tauto.

Lemma merge_subscriptions_idempotent (subs objects : subscriptions) :
  same_table (merge_subscriptions (merge_subscriptions subs objects) objects)
             (merge_subscriptions subs objects).
Proof. same_table_solver. Qed.

Lemma merge_subscriptions_comm (subs o1 o2 : subscriptions) :
  same_table (merge_subscriptions (merge_subscriptions subs o1) o2)
             (merge_subscriptions (merge_subscriptions subs o2) o1).
Proof. same_table_solver. Qed.

Lemma merge_subscriptions_swap (a b : subscriptions) :
  same_table (merge_subscriptions a b) (merge_subscriptions b a).
Proof. same_table_solver. Qed.

Lemma merge_subscriptions_assoc (a b c : subscriptions) :
  same_table (merge_subscriptions (merge_subscriptions a b) c)
             (merge_subscriptions a (merge_subscriptions b c)).
Proof. same_table_solver. Qed.

(** C1: the subscription merge of [make_request] is, object by object,
    the union of field sets with "all fields" ([None]) absorbing.
    Merging two field lists gives a duplicate-free list of exactly the
    names of either; an entry that is [None] stays [None] under every
    later merge; a request of [None] makes the entry [None]; and on
    tables, read as maps from objects to field sets, the merge is
    idempotent, commutative (requests can be merged in either order,
    and table and request can be exchanged) and associative. *)
Theorem merge_subscriptions_union_absorbing :
  (∀ pi items : list string,
     ∃ l, merge_items (Some pi) (Some items) = Some l ∧ NoDup l ∧
          ∀ x, x ∈ l ↔ x ∈ pi ∨ x ∈ items) ∧
  (∀ f : fields, merge_items None f = None ∧ merge_items f None = None) ∧
  (∀ (subs objects : subscriptions) obj pi items,
     subs !! obj = Some (Some pi) → objects !! obj = Some (Some items) →
     ∃ l, merge_subscriptions subs objects !! obj = Some (Some l) ∧
          ∀ x, x ∈ l ↔ x ∈ pi ∨ x ∈ items) ∧
  (∀ (subs objects : subscriptions) obj,
     subs !! obj = Some None →
     merge_subscriptions subs objects !! obj = Some None) ∧
  (∀ (subs objects : subscriptions) obj,
     objects !! obj = Some None →
     merge_subscriptions subs objects !! obj = Some None) ∧
  (∀ subs objects : subscriptions,
     same_table
       (merge_subscriptions (merge_subscriptions subs objects) objects)
       (merge_subscriptions subs objects)) ∧
  (∀ subs o1 o2 : subscriptions,
     same_table (merge_subscriptions (merge_subscriptions subs o1) o2)
                (merge_subscriptions (merge_subscriptions subs o2) o1)) ∧
  (∀ a b : subscriptions,
     same_table (merge_subscriptions a b) (merge_subscriptions b a)) ∧
  (∀ a b c : subscriptions,
     same_table (merge_subscriptions (merge_subscriptions a b) c)
                (merge_subscriptions a (merge_subscriptions b c))).
Proof.
  repeat split.
  - eexists. split; [reflexivity|]. split; [apply uitems_NoDup|].
    intros x. apply uitems_spec.
  - by destruct f.
  - intros subs objects obj pi items Hs Ho.
    rewrite merge_subscriptions_lookup, Hs, Ho. simpl.
    eexists. split; [reflexivity|]. intros x. apply uitems_spec.
  - intros subs objects obj Hs.
    rewrite merge_subscriptions_lookup, Hs.
    by destruct (objects !! obj) as [[?|]|].
  - intros subs objects obj Ho.
    rewrite merge_subscriptions_lookup, Ho. simpl.
    by destruct (subs !! obj) as [[?|]|].
  - apply merge_subscriptions_idempotent.
  - apply merge_subscriptions_comm.
  - apply merge_subscriptions_swap.
  - apply merge_subscriptions_assoc.
Qed.

(** ** The encoding of the table in [params] loses nothing *)

Lemma decode_encode_fields (f : fields) :
  decode_fields (encode_fields f) = Some f.
Proof.
  destruct f as [l|]; simpl; [|done].
  assert (mapM decode_field (JStr <$> l) = Some l) as ->; [|done].
  apply mapM_Some. induction l; constructor; auto.
Qed.

Lemma decode_encode_objects (subs : subscriptions) :
  decode_objects (encode_objects subs) = Some subs.
Proof.
  unfold decode_objects, encode_objects.
  rewrite bool_decide_eq_true_2.
  - f_equal. apply map_eq. intros obj.
    rewrite lookup_omap, lookup_fmap.
    destruct (subs !! obj) as [f|]; simpl; [|done].
    apply decode_encode_fields.
  - intros obj v. rewrite lookup_fmap.
    destruct (subs !! obj) as [f|]; simpl; [|done].
    intros [= <-]. rewrite decode_encode_fields. eauto.
Qed.

(** C5: a [make_request] for "objects/subscribe" whose objects have the
    documented shape goes through; the table becomes the merge of the
    old table and the requested objects, and the request created carries
    that whole table as its 'objects' parameter (an encoding from which
    the table is read back), the fixed 'response_template' naming
    "process_status_update", and the caller's other parameters. *)
Theorem make_request_subscribe_sends_whole_table
    (p : gmap string json) (self : Z) (s : Server) (objects : subscriptions) :
  decode_objects (default (JObj ∅) (p !! "objects")) = Some objects →
  ∃ s' r,
    make_request "objects/subscribe" p self s = Some s' ∧
    all_subscriptions s' =
      merge_subscriptions (all_subscriptions s) objects ∧
    heap s' !! self = Some r ∧
    rpc_method r = "objects/subscribe" ∧
    params r !! "objects" = Some (encode_objects (all_subscriptions s')) ∧
    decode_objects (encode_objects (all_subscriptions s')) =
      Some (all_subscriptions s') ∧
    params r !! "response_template" =
      Some (JObj {["method" := JStr "process_status_update"]}) ∧
    (∀ k, k ≠ "objects" → k ≠ "response_template" →
          params r !! k = p !! k).
Proof.
  intros Hdec. unfold make_request, subscribe_params. simpl.
  rewrite Hdec. simpl.
  eexists _, _. split; [reflexivity|]. simpl.
  split; [reflexivity|].
  split; [apply lookup_insert_eq|]. simpl.
  split; [reflexivity|].
  split; [by rewrite lookup_insert_ne, lookup_insert_eq|].
  split; [apply decode_encode_objects|].
  split; [apply lookup_insert_eq|].
  intros k ??. by rewrite !lookup_insert_ne.
Qed.

Lemma make_request_subscribe_sends_whole_table_witness :
  ∃ s' r,
    make_request "objects/subscribe" subscribe_toolhead 100 init_server
      = Some s' ∧
    all_subscriptions s' =
      merge_subscriptions (all_subscriptions init_server)
        {["toolhead" := Some ["position"%string]]} ∧
    heap s' !! 100 = Some r ∧
    rpc_method r = "objects/subscribe" ∧
    params r !! "objects" = Some (encode_objects (all_subscriptions s')) ∧
    decode_objects (encode_objects (all_subscriptions s')) =
      Some (all_subscriptions s') ∧
    params r !! "response_template" =
      Some (JObj {["method" := JStr "process_status_update"]}) ∧
    (∀ k, k ≠ "objects" → k ≠ "response_template" →
          params r !! k = subscribe_toolhead !! k).
Proof.
  apply (make_request_subscribe_sends_whole_table subscribe_toolhead 100
           init_server {["toolhead" := Some ["position"%string]]}).
  vm_compute. reflexivity.
Defined.

(** ** Empty field lists *)

(** A first subscription to "A" with the empty list [[]] records the
    empty list, not [None]. *)
Lemma empty_fields_recorded_as_empty_list :
  ∃ s, make_request "objects/subscribe" subscribe_empty_fields 100
         init_server = Some s ∧
       all_subscriptions s !! "A" = Some (Some []) ∧
       all_subscriptions s !! "A" ≠ Some None.
Proof. eexists. split; [reflexivity|]. split; [reflexivity|]. discriminate. Qed.

(** C9 (amended): only a null field specification is the all-fields
    sentinel.  JSON null is read as [None] and merging it makes the
    entry [None]; the empty array is read as the empty field list, which
    is recorded as such for a new object and leaves the field set of an
    object already in the table as it was. *)
Theorem null_is_all_fields_empty_list_is_not
    (subs objects : subscriptions) (obj : string) :
  decode_fields JNull = Some None ∧
  decode_fields (JArr []) = Some (Some []) ∧
  (objects !! obj = Some None →
   merge_subscriptions subs objects !! obj = Some None) ∧
  (objects !! obj = Some (Some []) →
   match subs !! obj with
   | None => merge_subscriptions subs objects !! obj = Some (Some [])
   | Some pi => ∃ f, merge_subscriptions subs objects !! obj = Some f ∧
                     same_fields f pi
   end).
Proof.
  split; [done|]. split; [done|].
  rewrite merge_subscriptions_lookup. split; intros ->; simpl.
  - by destruct (subs !! obj) as [[?|]|].
  - destruct (subs !! obj) as [[pi|]|]; simpl; [| |done].
    + eexists. split; [done|]. simpl. intros x. rewrite uitems_spec.
      split; [intros [?|H]; [done|by apply elem_of_nil in H]|auto].
    + by eexists.
Qed.

(** ** Responses to tracked requests *)

(** The falsy documents. *)
Lemma truthy_false (v : json) :
  truthy v = false ↔
  v = JNull ∨ v = JBool false ∨ v = JInt 0 ∨ v = JStr "" ∨ v = JArr [] ∨
  v = JObj ∅.
Proof.
  split.
  - destruct v as [|b|z|str|l|m]; simpl; intros H.
    + auto.
    + subst. auto.
    + apply negb_false_iff, Z.eqb_eq in H. subst. auto 6.
    + apply negb_false_iff, String.eqb_eq in H. subst. auto 6.
    + destruct l; [auto 6|done].
    + apply negb_false_iff, bool_decide_eq_true in H. subst. auto 7.
  - intros H. destruct H as [H|[H|[H|[H|[H|H]]]]]; subst; reflexivity.
Qed.

Section Response.

(** A frame [cmd] without method whose id [k] is registered for the
    live request [r] at address [request]. *)
Context (cmd : gmap string json) (s : Server) (k request : Z)
        (r : BaseRequest).
Hypothesis Hmethod : cmd !! "method" = None.
Hypothesis Hid : cmd !! "id" = Some (JInt k).
Hypothesis Hpending : pending_requests s !! k = Some request.
Hypothesis Hlive : heap s !! request = Some r.

Lemma process_command_response :
  pending_requests (process_command cmd s) = delete k (pending_requests s) ∧
  heap (process_command cmd s) =
    alter (notify (command_result cmd)) request (heap s).
Proof.
  unfold process_command, pop.
  rewrite Hmethod, Hid. simpl. rewrite Hpending. done.
Qed.

Lemma process_command_notifies (v : response_value) :
  command_result cmd = v →
  let s' := process_command cmd s in
  heap s' !! request = Some (notify v r) ∧
  pending_requests s' !! k = None ∧
  make_request_result request s' = wait (notify v r) ∧
  (∀ other, other ≠ request → heap s' !! other = heap s !! other).
Proof.
  intros Hv s'. destruct process_command_response as [Hp Hh].
  assert (heap s' !! request = Some (notify v r)) as Hs'.
  { subst s'. rewrite Hh, Hv, lookup_alter_eq, Hlive. done. }
  split; [done|]. split.
  - subst s'. rewrite Hp. apply lookup_delete_eq.
  - split.
    + unfold make_request_result. rewrite Hs'. done.
    + intros other Hne. subst s'. rewrite Hh. by apply lookup_alter_ne.
Qed.

(** C7: a response (a frame without method) carrying the id of a tracked
    request and a 'result' resolves that request with the result when it
    is truthy and with the string "ok" when it is falsy; the request
    leaves the registry, its caller gets that value returned, and no
    other request is touched. *)
Theorem process_command_result_ok_when_falsy (result : json) :
  cmd !! "result" = Some result →
  let s' := process_command cmd s in
  let v := if truthy result then result else JStr "ok" in
  heap s' !! request = Some (notify (Payload v) r) ∧
  pending_requests s' !! k = None ∧
  make_request_result request s' = Some (Returned v) ∧
  (∀ other, other ≠ request → heap s' !! other = heap s !! other).
Proof.
  intros Hres s' v. apply (process_command_notifies (Payload v)).
  unfold command_result. by rewrite Hres.
Qed.

(** C8 (amended): a response (a frame without method) carrying the id
    of a tracked request, an 'error' and no 'result' resolves that
    request with [ServerError(error, 400)], the error being the
    document Klippy sent; the request leaves the registry, the error is
    raised to the caller waiting on that request, and no other request
    is touched. *)
Theorem process_command_error_raises_400 (err : json) :
  cmd !! "result" = None →
  cmd !! "error" = Some err →
  let s' := process_command cmd s in
  let e := mkServerError err 400 in
  heap s' !! request = Some (notify (Error e) r) ∧
  pending_requests s' !! k = None ∧
  make_request_result request s' = Some (Raised e) ∧
  (∀ other, other ≠ request → heap s' !! other = heap s !! other).
Proof.
  intros Hres Herr s' e. apply (process_command_notifies (Error e)).
  unfold command_result. by rewrite Hres, Herr.
Qed.

End Response.

(** Scenario 4 of the specification: the result [{}] is delivered as
    "ok". *)
Lemma process_command_result_ok_when_falsy_witness :
  let s' := process_command (<["id" := JInt 100]> {["result" := JObj ∅]})
              one_pending in
  heap s' !! 100 = Some (notify (Payload (JStr "ok")) info_request) ∧
  pending_requests s' !! 100 = None ∧
  make_request_result 100 s' = Some (Returned (JStr "ok")) ∧
  (∀ other, other ≠ 100 → heap s' !! other = heap one_pending !! other).
Proof.
  refine (process_command_result_ok_when_falsy
            (<["id" := JInt 100]> {["result" := JObj ∅]})
            one_pending 100 100 info_request _ _ _ _ (JObj ∅) _);
    vm_compute; reflexivity.
Defined.

(** A frame with both 'result' and 'error' resolves the request with
    the result: its caller gets a value returned, nothing is raised. *)
Lemma result_takes_precedence_over_error :
  let cmd : gmap string json :=
    <["id" := JInt 100]>
      (<["result" := JInt 5]> {["error" := JStr "boom"]}) in
  let s' := process_command cmd one_pending in
  pending_requests one_pending !! 100 = Some 100 ∧
  is_Some (cmd !! "error") ∧
  (response <$> heap s' !! 100) = Some (Payload (JInt 5)) ∧
  make_request_result 100 s' = Some (Returned (JInt 5)).
Proof. vm_compute. eauto. Qed.

Lemma process_command_error_raises_400_witness :
  let s' := process_command
              (<["id" := JInt 100]> {["error" := JStr "Unknown command"]})
              one_pending in
  let e := mkServerError (JStr "Unknown command") 400 in
  heap s' !! 100 = Some (notify (Error e) info_request) ∧
  pending_requests s' !! 100 = None ∧
  make_request_result 100 s' = Some (Raised e) ∧
  (∀ other, other ≠ 100 → heap s' !! other = heap one_pending !! other).
Proof.
  apply (process_command_error_raises_400
           (<["id" := JInt 100]> {["error" := JStr "Unknown command"]})
           one_pending 100 100 info_request);
    vm_compute; reflexivity.
Defined.

(** ** Notifications *)

Lemma call_registry (cb : callback) (p : json) (s s' : Server) :
  call cb p s = Some s' →
  pending_requests s' = pending_requests s ∧ heap s' = heap s ∧
  all_subscriptions s' = all_subscriptions s ∧
  init_list s' = init_list s.
Proof.
  unfold call, _process_status_update, _process_gcode_response.
  intros H. repeat case_match; simplify_eq/=; done.
Qed.

(** A frame whose method is null is handled as a response: here it
    resolves the request pending under its id. *)
Lemma null_method_resolves_request :
  let cmd : gmap string json :=
    <["method" := JNull]> (<["id" := JInt 100]> {["result" := JInt 1]}) in
  let s' := process_command cmd one_pending in
  is_Some (cmd !! "method") ∧ is_Some (cmd !! "id") ∧
  pending_requests one_pending !! 100 = Some 100 ∧
  pending_requests s' !! 100 = None ∧
  make_request_result 100 one_pending = None ∧
  make_request_result 100 s' = Some (Returned (JInt 1)).
Proof. vm_compute. eauto 10. Qed.

(** C10 (amended): a frame whose 'method' is present and not null is
    handled only as a notification, with or without an 'id': the method
    is looked up in [remote_methods] and, when found, called with the
    frame's params; the registry and every request are left as they
    were. *)
Theorem process_command_method_is_notification
    (cmd : gmap string json) (s : Server) (method : json) :
  cmd !! "method" = Some method →
  method ≠ JNull →
  process_command cmd s =
    match lookup_method (remote_methods s) method with
    | Some cb => default s (call cb (default (JObj ∅) (cmd !! "params")) s)
    | None => s
    end ∧
  pending_requests (process_command cmd s) = pending_requests s ∧
  heap (process_command cmd s) = heap s.
Proof.
  intros Hm Hnull.
  assert (process_command cmd s =
    match lookup_method (remote_methods s) method with
    | Some cb => default s (call cb (default (JObj ∅) (cmd !! "params")) s)
    | None => s
    end) as ->.
  { unfold process_command. rewrite Hm. simpl. by destruct method. }
  split; [done|].
  destruct (lookup_method (remote_methods s) method) as [cb|]; [|done].
  destruct (call cb _ s) as [s'|] eqn:Hcall; simpl; [|done].
  apply call_registry in Hcall. by destruct Hcall as (-> & -> & _).
Qed.

Lemma process_command_method_is_notification_witness :
  let cmd : gmap string json :=
    <["method" := JStr "process_gcode_response"]>
      (<["id" := JInt 100]>
         {["params" := JObj {["response" := JStr "ok T:210"]}]}) in
  process_command cmd one_pending =
    match lookup_method (remote_methods one_pending)
            (JStr "process_gcode_response") with
    | Some cb =>
        default one_pending
          (call cb (default (JObj ∅) (cmd !! "params")) one_pending)
    | None => one_pending
    end ∧
  pending_requests (process_command cmd one_pending) =
    pending_requests one_pending ∧
  heap (process_command cmd one_pending) = heap one_pending.
Proof.
  apply (process_command_method_is_notification
           (<["method" := JStr "process_gcode_response"]>
              (<["id" := JInt 100]>
                 {["params" := JObj {["response" := JStr "ok T:210"]}]}))
           one_pending (JStr "process_gcode_response"));
    [vm_compute; reflexivity|discriminate].
Defined.

(** ** The registry invariant *)

Lemma notify_all_lookup (resp : response_value) (requests : gmap Z Z)
    (h : gmap Z BaseRequest) (a : Z) :
  (∀ k x, requests !! k = Some x → k = x) →
  notify_all resp requests h !! a =
    match requests !! a with
    | Some _ => notify resp <$> h !! a
    | None => h !! a
    end.
Proof.
  unfold notify_all.
  apply (map_fold_weak_ind
    (λ r (m : gmap Z Z),
       (∀ k x, m !! k = Some x → k = x) →
       r !! a = match m !! a with
                | Some _ => notify resp <$> h !! a
                | None => h !! a
                end)).
  - intros _. by rewrite lookup_empty.
  - intros i x m r Hfresh IH Hself.
    assert (i = x) as <- by (apply Hself; apply lookup_insert_eq).
    assert (∀ k y, m !! k = Some y → k = y) as Hm.
    { intros k y Hk. apply Hself. rewrite lookup_insert_ne; [done|].
      intros ->. congruence. }
    specialize (IH Hm).
    rewrite lookup_alter, lookup_insert.
    case_decide; subst; [|done].
    by rewrite IH, Hfresh.
Qed.

Lemma registry_ok_same (s s' : Server) :
  pending_requests s' = pending_requests s →
  heap s' = heap s →
  registry_ok s → registry_ok s'.
Proof.
  intros Hp Hh [H1 H2 H3 H4 H5].
  split; rewrite ?Hp, ?Hh; assumption.
Qed.

Lemma registry_ok_init : registry_ok init_server.
Proof. split; simpl; intros *; by rewrite lookup_empty. Qed.

Lemma registry_ok_notify (resp : response_value) (request : Z) (s s' : Server) :
  pending_requests s' = pending_requests s →
  heap s' = alter (notify resp) request (heap s) →
  registry_ok s → registry_ok s'.
Proof.
  intros Hp Hh [H1 H2 H3 H4 H5].
  split; rewrite ?Hp, ?Hh.
  - assumption.
  - intros a Ha. rewrite lookup_alter. case_decide; subst.
    + destruct (H2 _ Ha) as [r ->]. by eexists.
    + by apply H2.
  - intros a r. rewrite lookup_alter. case_decide; subst; [|by apply H3].
    destruct (heap s !! a) as [r0|] eqn:E; simpl; [|done].
    intros [= <-]. simpl. by apply (H3 a).
  - intros a r. rewrite lookup_alter. case_decide; subst; [|by apply H4].
    destruct (heap s !! a) as [r0|] eqn:E; simpl; [|done].
    intros [= <-]. simpl. intros H. by apply app_nil in H as [_ ?].
  - intros a r. rewrite lookup_alter. case_decide; subst; [|by apply H5].
    destruct (heap s !! a) as [r0|] eqn:E; simpl; [|done].
    intros [= <-]. simpl. split; [|done].
    intros _ H. by apply app_nil in H as [_ ?].
Qed.

Lemma registry_ok_make_request rpc_method p self s s' :
  heap s !! self = None →
  make_request rpc_method p self s = Some s' →
  registry_ok s → registry_ok s'.
Proof.
  intros Hfresh Hmk [H1 H2 H3 H4 H5]. unfold make_request in Hmk.
  destruct (if String.eqb rpc_method "objects/subscribe" then _ else _)
    as [[subs p']|]; simplify_eq/=.
  split; simpl.
  - intros k a. rewrite lookup_insert. case_decide; [congruence|apply H1].
  - intros a. rewrite !lookup_insert.
    case_decide; [by eexists|apply H2].
  - intros a r. rewrite lookup_insert.
    case_decide; [by intros [= <-]|apply H3].
  - intros a r. rewrite !lookup_insert.
    case_decide; subst; [done|apply H4].
  - intros a r. rewrite lookup_insert.
    case_decide; subst; [by intros [= <-]|apply H5].
Qed.

Lemma registry_ok_process_command cmd s :
  registry_ok s → registry_ok (process_command cmd s).
Proof.
  intros Hok. unfold process_command.
  destruct (default JNull (cmd !! "method")) eqn:Hm;
    try (destruct (lookup_method _ _) as [cb|]; [|done];
         destruct (call cb _ s) as [s'|] eqn:Hcall; simpl; [|done];
         apply call_registry in Hcall as (Hp & Hh & _);
         by apply (registry_ok_same s)).
  destruct (request_key _ ≫= _) as [request|] eqn:Hk; [|done].
  apply bind_Some in Hk as (k & Hkey & Hk).
  unfold pop. rewrite Hkey.
  destruct Hok as [H1 H2 H3 H4 H5].
  assert (k = request) as -> by by apply H1.
  split; simpl.
  - intros k a Ha. apply lookup_delete_Some in Ha as [_ Ha]. by apply H1.
  - intros a Ha. apply lookup_delete_Some in Ha as [Hne Ha].
    rewrite lookup_alter_ne by done. by apply H2.
  - intros a r. rewrite lookup_alter. case_decide; subst; [|by apply H3].
    destruct (heap s !! a) as [r0|] eqn:E; simpl; [|done].
    intros [= <-]. simpl. by apply (H3 a).
  - intros a r. rewrite lookup_alter. case_decide; subst.
    + destruct (heap s !! a) as [r0|] eqn:E; simpl; [|done].
      intros [= <-]. simpl. intros H. by apply app_nil in H as [_ ?].
    + intros Ha Hn. rewrite lookup_delete_ne by done. by apply (H4 a r).
  - intros a r. rewrite lookup_alter. case_decide; subst; [|by apply H5].
    destruct (heap s !! a) as [r0|] eqn:E; simpl; [|done].
    intros [= <-]. simpl. split; [|done].
    intros _ H. by apply app_nil in H as [_ ?].
Qed.

Lemma registry_ok_on_connection_closed s :
  registry_ok s → registry_ok (on_connection_closed s).
Proof.
  intros [H1 H2 H3 H4 H5].
  assert (∀ a r, heap (on_connection_closed s) !! a = Some r →
            ∃ r0, heap s !! a = Some r0 ∧
                  ((r = r0 ∧ pending_requests s !! a = None) ∨
                   r = notify klippy_disconnected r0)) as Hheap.
  { intros a r. simpl. rewrite notify_all_lookup by done.
    destruct (pending_requests s !! a), (heap s !! a) as [r0|];
      simpl; intros [= <-]; eauto. }
  split.
  - intros k a. simpl. by rewrite lookup_empty.
  - intros a. simpl. by rewrite lookup_empty.
  - intros a r Ha. destruct (Hheap a r Ha) as (r0 & Hr0 & [[-> _]| ->]);
      simpl; by apply (H3 a).
  - intros a r Ha Hn. destruct (Hheap a r Ha) as (r0 & Hr0 & [[-> Hnone]| ->]).
    + rewrite (H4 a r0 Hr0 Hn) in Hnone. done.
    + simpl in Hn. by apply app_nil in Hn as [_ ?].
  - intros a r Ha. destruct (Hheap a r Ha) as (r0 & Hr0 & [[-> _]| ->]).
    + by apply (H5 a).
    + simpl. split; [|done]. intros _ H. by apply app_nil in H as [_ ?].
Qed.

Lemma referenced_false (a : Z) (s : Server) (r : BaseRequest) :
  referenced a s = false → heap s !! a = Some r →
  (∀ k, pending_requests s !! k ≠ Some a) ∧ _event r = true.
Proof.
  unfold referenced. intros H Hr. rewrite Hr in H.
  apply orb_false_iff in H as [H Hev].
  apply orb_false_iff in H as [H _].
  apply bool_decide_eq_false in H. split.
  - intros k Hk. apply H. by exists k, a.
  - by apply negb_false_iff in Hev.
Qed.

Lemma step_registry_ok (e : event) (s s' : Server) :
  step e s = Some s' → registry_ok s → registry_ok s'.
Proof.
  destruct e as [m p self| |cmd|ok| |request|name]; simpl; intros Hstep Hok.
  - destruct (heap s !! self) eqn:Hfresh; [done|].
    by eapply registry_ok_make_request.
  - destruct (spawned s) as [|request rest]; simplify_eq/=.
    set (s1 := mkServer _ _ _ _ _ _ _ _ rest _ _).
    assert (registry_ok s1) as Hok1 by by apply (registry_ok_same s).
    unfold send_request.
    destruct (iostream s1) as [[[]]|];
      try by apply (registry_ok_notify klippy_not_connected request s1).
    destruct (heap s1 !! request); [|done].
    by apply (registry_ok_same s1).
  - destruct (iostream s) as [[[]]|]; simplify_eq/=.
    by apply registry_ok_process_command.
  - unfold _connect_klippy in Hstep.
    destruct (connect_timers s); simplify_eq/=.
    by apply (registry_ok_same s).
  - unfold stream_closed in Hstep.
    destruct (iostream s) as [[[]]|]; simplify_eq/=.
    apply registry_ok_on_connection_closed. by apply (registry_ok_same s).
  - destruct (heap s !! request) as [r|] eqn:Hr; [|done].
    destruct (referenced request s) eqn:Href; simplify_eq/=.
    destruct (referenced_false _ _ _ Href Hr) as [Hfree Hev].
    destruct Hok as [H1 H2 H3 H4 H5].
    split; simpl.
    + done.
    + intros a Ha. rewrite lookup_delete_ne; [by apply H2|].
      intros <-. by apply (Hfree request).
    + intros a r0 Ha. apply lookup_delete_Some in Ha as [_ Ha]. by apply (H3 a).
    + intros a r0 Ha. apply lookup_delete_Some in Ha as [_ Ha]. by apply (H4 a).
    + intros a r0 Ha. apply lookup_delete_Some in Ha as [_ Ha]. by apply (H5 a).
  - simplify_eq. unfold register_remote_method.
    destruct (remote_methods s !! name); [done|].
    by apply (registry_ok_same s).
Qed.

Lemma run_registry_ok (events : list event) (s s' : Server) :
  run events s = Some s' → registry_ok s → registry_ok s'.
Proof.
  revert s. induction events as [|e events IH]; simpl; intros s Hrun Hok.
  - by simplify_eq.
  - destruct (step e s) as [s1|] eqn:Hstep; simpl in Hrun; [|done].
    eapply IH; [done|]. by eapply step_registry_ok.
Qed.

Lemma reachable_registry_ok (s : Server) : reachable s → registry_ok s.
Proof.
  intros [events Hrun]. eapply run_registry_ok; [done|].
  apply registry_ok_init.
Qed.

(** ** Disconnection *)

(** C4: when the connection closes in a reachable state, the registry
    is empty afterwards; every request that was registered has been
    notified exactly once more, with [ServerError("Klippy Disconnected",
    503)], and every other request is untouched; so every request that
    was still unresolved now has exactly that one resolution, which is
    raised to its caller. *)
Theorem stream_closed_resolves_every_pending_request (s s' : Server) :
  reachable s →
  step StreamClosed s = Some s' →
  pending_requests s' = ∅ ∧
  (∀ request r, heap s !! request = Some r →
     heap s' !! request =
       Some (if decide (is_Some (pending_requests s !! request))
             then notify klippy_disconnected r else r)) ∧
  (∀ request r, heap s !! request = Some r → notified r = [] →
     ∃ r', heap s' !! request = Some r' ∧
           notified r' = [klippy_disconnected] ∧
           make_request_result request s' =
             Some (Raised (mkServerError (JStr "Klippy Disconnected") 503))).
Proof.
  intros Hreach Hstep. apply reachable_registry_ok in Hreach as Hok.
  simpl in Hstep. unfold stream_closed in Hstep.
  destruct (iostream s) as [[[]]|]; simplify_eq/=.
  assert (∀ request r, heap s !! request = Some r →
     notify_all klippy_disconnected (pending_requests s) (heap s) !! request =
       Some (if decide (is_Some (pending_requests s !! request))
             then notify klippy_disconnected r else r)) as Hheap.
  { intros request r Hr.
    rewrite notify_all_lookup by apply (registered_self s Hok).
    rewrite Hr.
    by destruct (pending_requests s !! request). }
  split; [done|]. split; [done|].
  intros request r Hr Hn.
  exists (notify klippy_disconnected r).
  unfold make_request_result. simpl. rewrite (Hheap request r Hr).
  rewrite (unresolved_registered s Hok request r Hr Hn).
  rewrite decide_True by by eexists.
  split; [done|]. simpl. by rewrite Hn.
Qed.

Lemma stream_closed_resolves_every_pending_request_witness :
  pending_requests two_pending_closed = ∅ ∧
  (∀ request r, heap two_pending !! request = Some r →
     heap two_pending_closed !! request =
       Some (if decide (is_Some (pending_requests two_pending !! request))
             then notify klippy_disconnected r else r)) ∧
  (∀ request r, heap two_pending !! request = Some r → notified r = [] →
     ∃ r', heap two_pending_closed !! request = Some r' ∧
           notified r' = [klippy_disconnected] ∧
           make_request_result request two_pending_closed =
             Some (Raised (mkServerError (JStr "Klippy Disconnected") 503))).
Proof.
  apply (stream_closed_resolves_every_pending_request
           two_pending two_pending_closed).
  - exists two_pending_trace. vm_compute. reflexivity.
  - vm_compute. reflexivity.
Defined.

(** After a subscription, a disconnection and a successful reconnection
    the table still holds the subscription. *)
Lemma subscriptions_survive_disconnection :
  ∃ s, run [Connect true;
            MakeRequest "objects/subscribe" subscribe_toolhead 100;
            StreamClosed; Connect true] init_server = Some s ∧
       all_subscriptions s !! "toolhead" = Some (Some ["position"%string]) ∧
       all_subscriptions s ≠ ∅ ∧
       init_list s = [].
Proof.
  eexists. split; [vm_compute; reflexivity|].
  split; [reflexivity|]. split; [|reflexivity].
  intros H. apply (f_equal (λ m : subscriptions, m !! "toolhead")) in H.
  vm_compute in H. discriminate.
Qed.

(** C2 (amended): a disconnection empties [init_list] and the registry
    of pending requests and leaves [all_subscriptions] as it was; the
    reconnection that starts the next epoch changes none of the three. *)
Theorem disconnection_resets_init_list_keeps_subscriptions (s s' : Server) :
  step StreamClosed s = Some s' →
  init_list s' = [] ∧ pending_requests s' = ∅ ∧
  all_subscriptions s' = all_subscriptions s ∧
  (∀ ok s'', step (Connect ok) s' = Some s'' →
     init_list s'' = [] ∧ pending_requests s'' = ∅ ∧
     all_subscriptions s'' = all_subscriptions s).
Proof.
  simpl. unfold stream_closed.
  destruct (iostream s) as [[[]]|]; intros Hstep; simplify_eq/=.
  repeat split; try done;
    unfold _connect_klippy in *; simpl in *; by simplify_eq/=.
Qed.

Lemma disconnection_resets_init_list_keeps_subscriptions_witness :
  let s' := default init_server (step StreamClosed ready_server) in
  init_list s' = [] ∧ pending_requests s' = ∅ ∧
  all_subscriptions s' = all_subscriptions ready_server ∧
  (∀ ok s'', step (Connect ok) s' = Some s'' →
     init_list s'' = [] ∧ pending_requests s'' = ∅ ∧
     all_subscriptions s'' = all_subscriptions ready_server).
Proof.
  apply (disconnection_resets_init_list_keeps_subscriptions ready_server).
  vm_compute. reflexivity.
Defined.

(** C3: a request made before Klippy is connected is notified by
    [send_request] and stays in the registry; when a later connection
    closes it is notified a second time. *)
Theorem failed_send_then_disconnect_notifies_twice :
  ∃ s r,
    run [MakeRequest "info" ∅ 100; SendRequest; Connect true; StreamClosed]
        init_server = Some s ∧
    heap s !! 100 = Some r ∧
    notified r = [klippy_not_connected; klippy_disconnected].
Proof. eexists _, _. split; [vm_compute; reflexivity|]. split; reflexivity. Qed.

(** ** Request ids *)

(** Both runs are possible: the ids handed out are [100, 100] in the
    first and [200, 100] in the second. *)
Lemma request_ids_reused_and_not_monotonic :
  is_Some (run id_reuse_trace init_server) ∧
  created_ids id_reuse_trace = [100; 100] ∧
  ¬ NoDup (created_ids id_reuse_trace) ∧
  is_Some (run id_decreasing_trace init_server) ∧
  created_ids id_decreasing_trace = [200; 100].
Proof.
  split; [vm_compute; eauto|]. split; [reflexivity|].
  split; [|split; [vm_compute; eauto|reflexivity]].
  change (created_ids id_reuse_trace) with [100; 100].
  intros H. apply NoDup_cons in H as [H _]. apply H. by left.
Qed.

(** C6 (amended): the id of a request is [id(self)], which is unique
    among the requests alive at the same time.  In every reachable
    state two distinct live requests have different ids, every entry of
    the registry is a live request stored under its own id, and a new
    request gets an id that no live request has. *)
Theorem live_requests_have_distinct_ids (s : Server) :
  reachable s →
  (∀ a b ra rb, heap s !! a = Some ra → heap s !! b = Some rb →
                a ≠ b → id ra ≠ id rb) ∧
  (∀ k request, pending_requests s !! k = Some request →
                ∃ r, heap s !! request = Some r ∧ id r = k) ∧
  (∀ m p self s', step (MakeRequest m p self) s = Some s' →
     (∃ r, heap s' !! self = Some r ∧ id r = self ∧
           pending_requests s' !! self = Some self) ∧
     (∀ a r, heap s !! a = Some r → id r ≠ self)).
Proof.
  intros Hreach. apply reachable_registry_ok in Hreach as Hok.
  destruct Hok as [H1 H2 H3 H4 H5].
  split; [|split].
  - intros a b ra rb Ha Hb Hne. by rewrite (H3 a ra), (H3 b rb).
  - intros k request Hk. assert (k = request) as -> by by apply H1.
    destruct (H2 request Hk) as [r Hr]. exists r. split; [done|].
    by apply H3.
  - intros m p self s' Hstep. simpl in Hstep.
    destruct (heap s !! self) eqn:Hfresh; [done|].
    unfold make_request in Hstep.
    destruct (if String.eqb m "objects/subscribe" then _ else _)
      as [[subs p']|]; simplify_eq/=.
    split.
    + eexists. rewrite !lookup_insert_eq. done.
    + intros a r Ha. rewrite (H3 a r Ha). intros ->. congruence.
Qed.

Lemma live_requests_have_distinct_ids_witness :
  (∀ a b ra rb, heap two_pending !! a = Some ra →
                heap two_pending !! b = Some rb →
                a ≠ b → id ra ≠ id rb) ∧
  (∀ k request, pending_requests two_pending !! k = Some request →
                ∃ r, heap two_pending !! request = Some r ∧ id r = k) ∧
  (∀ m p self s', step (MakeRequest m p self) two_pending = Some s' →
     (∃ r, heap s' !! self = Some r ∧ id r = self ∧
           pending_requests s' !! self = Some self) ∧
     (∀ a r, heap two_pending !! a = Some r → id r ≠ self)).
Proof.
  apply (live_requests_have_distinct_ids two_pending).
  exists two_pending_trace. vm_compute. reflexivity.
Defined.

(** * Further properties of the core *)

Set Warnings "-clear-no-such-hyp".

(** ** Frames that resolve nothing *)

(** A frame handled as a response whose id denotes no registered key
    (absent, not an integer, or unknown) is dropped. *)
Lemma process_command_unmatched
    (cmd : gmap string json) (s : Server) :
  default JNull (cmd !! "method") = JNull →
  (∀ k, request_key (default JNull (cmd !! "id")) = Some k →
        pending_requests s !! k = None) →
  process_command cmd s = s.
Proof.
  intros Hm Hk. unfold process_command. rewrite Hm.
  destruct (request_key _) as [k|] eqn:E; simpl; [|done].
  by rewrite (Hk k).
Qed.

(** X1: a response delivered twice resolves its request once: handling the
    same response frame a second time changes nothing. *)
Theorem process_command_duplicate_response_dropped
    (cmd : gmap string json) (s : Server) :
  default JNull (cmd !! "method") = JNull →
  process_command cmd (process_command cmd s) = process_command cmd s.
Proof.
  intros Hm.
  destruct (request_key (default JNull (cmd !! "id")) ≫=
              λ k, pending_requests s !! k) as [request|] eqn:E.
  - apply process_command_unmatched; [done|].
    intros k Hk. unfold process_command, pop. rewrite Hm, E, Hk. simpl.
    apply lookup_delete_eq.
  - assert (process_command cmd s = s) as ->; [|].
    { unfold process_command. by rewrite Hm, E. }
    unfold process_command. by rewrite Hm, E.
Qed.

Lemma process_command_duplicate_response_dropped_witness :
  let cmd : gmap string json :=
    <["id" := JInt 100]> {["result" := JInt 1]} in
  process_command cmd (process_command cmd one_pending)
  = process_command cmd one_pending.
Proof.
  apply process_command_duplicate_response_dropped. reflexivity.
Defined.

(** X2: a response with the id of a tracked request and neither 'result'
    nor 'error' resolves the request with [ServerError("Malformed Klippy
    Response", 400)], raised to its caller. *)
Theorem process_command_malformed_response
    (cmd : gmap string json) (s : Server) (k request : Z) (r : BaseRequest) :
  cmd !! "method" = None →
  cmd !! "id" = Some (JInt k) →
  pending_requests s !! k = Some request →
  heap s !! request = Some r →
  cmd !! "result" = None →
  cmd !! "error" = None →
  let s' := process_command cmd s in
  let e := mkServerError (JStr "Malformed Klippy Response") 400 in
  heap s' !! request = Some (notify (Error e) r) ∧
  pending_requests s' !! k = None ∧
  make_request_result request s' = Some (Raised e).
Proof.
  intros Hm Hid Hk Hr Hres Herr s' e.
  destruct (process_command_notifies cmd s k request r Hm Hid Hk Hr (Error e))
    as (H1 & H2 & H3 & _).
  { unfold command_result. by rewrite Hres, Herr. }
  done.
Qed.

Lemma process_command_malformed_response_witness :
  let s' := process_command {["id" := JInt 100]} one_pending in
  let e := mkServerError (JStr "Malformed Klippy Response") 400 in
  heap s' !! 100 = Some (notify (Error e) info_request) ∧
  pending_requests s' !! 100 = None ∧
  make_request_result 100 s' = Some (Raised e).
Proof.
  apply (process_command_malformed_response
           {["id" := JInt 100]} one_pending 100 100 info_request);
    vm_compute; reflexivity.
Defined.

(** ** What a frame can change *)

Lemma call_frame (cb : callback) (p : json) (s s' : Server) :
  call cb p s = Some s' →
  init_list s' = init_list s ∧
  all_subscriptions s' = all_subscriptions s ∧
  pending_requests s' = pending_requests s ∧
  remote_methods s' = remote_methods s ∧
  iostream s' = iostream s ∧
  init_cb s' = init_cb s ∧
  heap s' = heap s ∧
  spawned s' = spawned s ∧
  connect_timers s' = connect_timers s ∧
  ∃ effects, trace s' = trace s ++ effects.
Proof.
  unfold call, _process_status_update, _process_gcode_response.
  intros H. repeat case_match; simplify_eq/=; repeat (split; [done|]);
    first [ by eexists [_]
          | by (eexists [_; _]; rewrite <- app_assoc) ].
Qed.

Lemma process_command_fields (cmd : gmap string json) (s : Server) :
  let s' := process_command cmd s in
  init_list s' = init_list s ∧
  all_subscriptions s' = all_subscriptions s ∧
  remote_methods s' = remote_methods s ∧
  iostream s' = iostream s ∧
  init_cb s' = init_cb s ∧
  spawned s' = spawned s ∧
  connect_timers s' = connect_timers s ∧
  ∃ effects, trace s' = trace s ++ effects.
Proof.
  assert (∀ s0 : Server, s0 = s →
    init_list s0 = init_list s ∧ all_subscriptions s0 = all_subscriptions s ∧
    remote_methods s0 = remote_methods s ∧ iostream s0 = iostream s ∧
    init_cb s0 = init_cb s ∧ spawned s0 = spawned s ∧
    connect_timers s0 = connect_timers s ∧
    ∃ effects, trace s0 = trace s ++ effects) as Hsame.
  { intros s0 ->. repeat (split; [done|]). exists []. by rewrite app_nil_r. }
  simpl. unfold process_command.
  destruct (default JNull (cmd !! "method")) eqn:Hm;
    try (destruct (lookup_method _ _) as [cb|]; [|by apply Hsame];
         destruct (call cb _ s) as [s'|] eqn:Hcall; simpl; [|by apply Hsame];
         apply call_frame in Hcall;
         destruct Hcall as (-> & -> & _ & -> & -> & -> & _ & -> & -> & Htr);
         done).
  destruct (request_key _ ≫= _); [|by apply Hsame].
  simpl. repeat (split; [done|]). exists []. by rewrite app_nil_r.
Qed.

(** X3: whatever bytes arrive from Klippy, handling them leaves the
    subscription table, the readiness list, the remote methods, the
    stream, the periodic callback, the spawned sends and the
    reconnection timers alone, and only appends to the events already
    published: what Klippy sends can resolve requests, set
    [klippy_state] and publish events, nothing else. *)
Theorem read_stream_frame
    (loads : list byte → option (gmap string json))
    (buffer : list byte) (s : Server) :
  let s' := (_read_stream loads buffer s).1 in
  init_list s' = init_list s ∧
  all_subscriptions s' = all_subscriptions s ∧
  remote_methods s' = remote_methods s ∧
  iostream s' = iostream s ∧
  init_cb s' = init_cb s ∧
  spawned s' = spawned s ∧
  connect_timers s' = connect_timers s ∧
  ∃ effects, trace s' = trace s ++ effects.
Proof.
  simpl. unfold _read_stream.
  destruct (read_frames (length buffer) buffer) as [payloads buffered]. simpl.
  revert s. induction payloads as [|payload payloads IH]; intros s; simpl.
  - repeat (split; [done|]). exists []. by rewrite app_nil_r.
  - destruct (IH (on_recd loads payload s))
      as (-> & -> & -> & -> & -> & -> & -> & effects & ->).
    unfold on_recd. destruct (loads payload) as [cmd|].
    + destruct (process_command_fields cmd s)
        as (-> & -> & -> & -> & -> & -> & -> & effects' & ->).
      repeat (split; [done|]). exists (effects' ++ effects).
      by rewrite app_assoc.
    + repeat (split; [done|]). by exists effects.
Qed.

(** ** What each handler changes *)

Lemma make_request_fields rpc_method p self s s' :
  make_request rpc_method p self s = Some s' →
  ∃ p', heap s' = <[self := new_request self rpc_method p']> (heap s) ∧
        pending_requests s' = <[self := self]> (pending_requests s) ∧
        spawned s' = spawned s ++ [self] ∧
        remote_methods s' = remote_methods s ∧
        iostream s' = iostream s ∧
        connect_timers s' = connect_timers s ∧
        trace s' = trace s ∧
        (if String.eqb rpc_method "objects/subscribe"
         then ∃ objects,
                decode_objects (default (JObj ∅) (p !! "objects"))
                  = Some objects ∧
                all_subscriptions s' =
                  merge_subscriptions (all_subscriptions s) objects
         else all_subscriptions s' = all_subscriptions s ∧ p' = p).
Proof.
  unfold make_request, subscribe_params. intros H.
  destruct (String.eqb rpc_method "objects/subscribe").
  - destruct (decode_objects _) as [objects|] eqn:Hdec; simplify_eq/=.
    eexists. repeat (split; [done|]). by exists objects.
  - simplify_eq/=. by eexists.
Qed.

Lemma send_request_fields request s :
  let s' := send_request request s in
  all_subscriptions s' = all_subscriptions s ∧
  pending_requests s' = pending_requests s ∧
  remote_methods s' = remote_methods s ∧
  iostream s' = iostream s ∧
  spawned s' = spawned s ∧
  connect_timers s' = connect_timers s ∧
  ((heap s' = alter (notify klippy_not_connected) request (heap s) ∧
    trace s' = trace s ∧
    (iostream s = None ∨ iostream s = Some (mkIOStream true))) ∨
   (heap s' = heap s ∧ iostream s = Some (mkIOStream false) ∧
    match heap s !! request with
    | Some r => trace s' = trace s ++ [Written (to_dict r)]
    | None => trace s' = trace s
    end)).
Proof.
  unfold send_request. destruct (iostream s) as [[[]]|] eqn:E; simpl;
    repeat (split; [done|]); try (left; by auto).
  destruct (heap s !! request); simpl; repeat (split; [done|]);
    right; by rewrite ?E.
Qed.

(** ** Remote methods *)

Lemma step_remote_methods (e : event) (s s' : Server) name cb :
  step e s = Some s' →
  remote_methods s !! name = Some cb → remote_methods s' !! name = Some cb.
Proof.
  destruct e as [m p self| |cmd|ok| |request|name']; simpl; intros Hstep Hcb.
  - destruct (heap s !! self); [done|].
    apply make_request_fields in Hstep as (p' & _ & _ & _ & -> & _). done.
  - destruct (spawned s) as [|request rest]; simplify_eq/=.
    by destruct (send_request_fields request
                   (mkServer (init_list s) (klippy_state s)
                      (all_subscriptions s) (pending_requests s)
                      (remote_methods s) (iostream s) (init_cb s) (heap s)
                      rest (connect_timers s) (trace s)))
      as (_ & _ & -> & _).
  - destruct (iostream s) as [[[]]|]; simplify_eq/=.
    by destruct (process_command_fields cmd s) as (_ & _ & -> & _).
  - unfold _connect_klippy in Hstep.
    by destruct (connect_timers s); simplify_eq/=.
  - unfold stream_closed in Hstep.
    by destruct (iostream s) as [[[]]|]; simplify_eq/=.
  - destruct (heap s !! request); [|done].
    by destruct (referenced request s); simplify_eq/=.
  - simplify_eq. unfold register_remote_method.
    destruct (remote_methods s !! name') eqn:E; [done|]. simpl.
    rewrite lookup_insert_ne; [done|]. intros ->. congruence.
Qed.

Lemma run_remote_methods (events : list event) (s s' : Server) name cb :
  run events s = Some s' →
  remote_methods s !! name = Some cb → remote_methods s' !! name = Some cb.
Proof.
  revert s. induction events as [|e events IH]; simpl; intros s Hrun Hcb.
  - by simplify_eq.
  - destruct (step e s) as [s1|] eqn:Hstep; simpl in Hrun; [|done].
    eapply IH; [done|]. by eapply step_remote_methods.
Qed.

Lemma reachable_builtin_methods (s : Server) :
  reachable s →
  remote_methods s !! "process_gcode_response" = Some process_gcode_response ∧
  remote_methods s !! "process_status_update" = Some process_status_update.
Proof.
  intros [events Hrun].
  split; by apply (run_remote_methods events init_server).
Qed.

(** X4: a remote method, once registered, is never replaced or removed:
    registering the name again is ignored and no other event touches the
    table.  In particular the two built-in methods stay bound to the
    server's own handlers whatever plugins register. *)
Theorem remote_methods_never_replaced (s : Server) :
  reachable s →
  remote_methods s !! "process_gcode_response" = Some process_gcode_response ∧
  remote_methods s !! "process_status_update" = Some process_status_update ∧
  (∀ name cb' cb, remote_methods s !! name = Some cb →
     register_remote_method name cb' s = s) ∧
  (∀ events s' name cb, run events s = Some s' →
     remote_methods s !! name = Some cb →
     remote_methods s' !! name = Some cb).
Proof.
  intros [events Hrun].
  split; [by apply (run_remote_methods events init_server)|].
  split; [by apply (run_remote_methods events init_server)|].
  split.
  - intros name cb' cb Hcb. unfold register_remote_method. by rewrite Hcb.
  - intros events' s' name cb. apply run_remote_methods.
Qed.

(** A server on which the power plugin has registered its remote method
    and tries to take over a built-in one. *)
Lemma remote_methods_never_replaced_witness :
  let s := default init_server
             (run [RegisterRemoteMethod "set_device_power";
                   RegisterRemoteMethod "process_status_update"]
                  init_server) in
  remote_methods s !! "process_gcode_response" = Some process_gcode_response ∧
  remote_methods s !! "process_status_update" = Some process_status_update ∧
  (∀ name cb' cb, remote_methods s !! name = Some cb →
     register_remote_method name cb' s = s) ∧
  (∀ events s' name cb, run events s = Some s' →
     remote_methods s !! name = Some cb →
     remote_methods s' !! name = Some cb).
Proof.
  apply remote_methods_never_replaced.
  exists [RegisterRemoteMethod "set_device_power";
          RegisterRemoteMethod "process_status_update"].
  vm_compute. reflexivity.
Defined.

(** ** The connection and its reconnection timer *)

Lemma step_connection_ok (e : event) (s s' : Server) :
  step e s = Some s' → connection_ok s → connection_ok s'.
Proof.
  unfold connection_ok.
  destruct e as [m p self| |cmd|ok| |request|name']; simpl; intros Hstep Hok.
  - destruct (heap s !! self); [done|].
    apply make_request_fields in Hstep as (p' & _ & _ & _ & _ & -> & -> & _).
    done.
  - destruct (spawned s) as [|request rest]; simplify_eq/=.
    by destruct (send_request_fields request
                   (mkServer (init_list s) (klippy_state s)
                      (all_subscriptions s) (pending_requests s)
                      (remote_methods s) (iostream s) (init_cb s) (heap s)
                      rest (connect_timers s) (trace s)))
      as (_ & _ & _ & -> & _ & -> & _).
  - destruct (iostream s) as [[[]]|] eqn:E; simplify_eq/=.
    destruct (process_command_fields cmd s)
      as (_ & _ & _ & -> & _ & _ & -> & _).
    by rewrite E.
  - unfold _connect_klippy in Hstep.
    destruct (connect_timers s) as [|n] eqn:En; simplify_eq/=.
    destruct ok; simpl; [|done].
    destruct (iostream s) as [[[]]|]; by simplify_eq/=.
  - unfold stream_closed in Hstep.
    destruct (iostream s) as [[[]]|]; simplify_eq/=. by rewrite Hok.
  - destruct (heap s !! request); [|done].
    by destruct (referenced request s); simplify_eq/=.
  - simplify_eq. unfold register_remote_method.
    by destruct (remote_methods s !! name').
Qed.

Lemma reachable_connection_ok (s : Server) : reachable s → connection_ok s.
Proof.
  intros [events Hrun]. revert Hrun.
  assert (connection_ok init_server) as Hinit by done.
  revert Hinit. generalize init_server as s0. revert s.
  induction events as [|e events IH]; simpl; intros s s0 Hok Hrun.
  - by simplify_eq.
  - destruct (step e s0) as [s1|] eqn:Hstep; simpl in Hrun; [|done].
    eapply IH; [|done]. by eapply step_connection_ok.
Qed.

(** X5: in every reachable state exactly one reconnection is scheduled
    while there is no open stream to Klippy and none while there is one;
    so a connection attempt can run exactly when the server is not
    connected, and the stream can only close when it is. *)
Theorem reconnection_scheduled_iff_disconnected (s : Server) :
  reachable s →
  connect_timers s =
    match iostream s with
    | Some (mkIOStream false) => 0%nat
    | _ => 1%nat
    end ∧
  (∀ ok, is_Some (step (Connect ok) s) ↔
         iostream s ≠ Some (mkIOStream false)) ∧
  (is_Some (step StreamClosed s) ↔ iostream s = Some (mkIOStream false)).
Proof.
  intros Hreach. apply reachable_connection_ok in Hreach.
  unfold connection_ok in Hreach. simpl.
  unfold _connect_klippy, stream_closed.
  destruct (iostream s) as [[[]]|]; simpl in *; rewrite Hreach;
    (split; [done|]); split; try intros ok; split;
    try done; try (by intros [??]); by eauto.
Qed.

Lemma reconnection_scheduled_iff_disconnected_witness :
  connect_timers two_pending_closed =
    match iostream two_pending_closed with
    | Some (mkIOStream false) => 0%nat
    | _ => 1%nat
    end ∧
  (∀ ok, is_Some (step (Connect ok) two_pending_closed) ↔
         iostream two_pending_closed ≠ Some (mkIOStream false)) ∧
  (is_Some (step StreamClosed two_pending_closed) ↔
   iostream two_pending_closed = Some (mkIOStream false)).
Proof.
  apply reconnection_scheduled_iff_disconnected.
  exists (two_pending_trace ++ [StreamClosed]). vm_compute. reflexivity.
Defined.

(** ** Sending *)

Lemma notify_all_is_Some resp (requests : gmap Z Z) (h : gmap Z BaseRequest) a :
  is_Some (notify_all resp requests h !! a) ↔ is_Some (h !! a).
Proof.
  unfold notify_all.
  apply (map_fold_weak_ind
    (λ r (m : gmap Z Z), is_Some (r !! a) ↔ is_Some (h !! a))); [done|].
  intros i x m r _ IH. rewrite <- IH, lookup_alter.
  case_decide; subst; [|done]. by rewrite fmap_is_Some.
Qed.

Lemma referenced_false_spawned (a : Z) (s : Server) :
  referenced a s = false → a ∉ spawned s.
Proof.
  unfold referenced. intros H.
  apply orb_false_iff in H as [H _].
  apply orb_false_iff in H as [_ H].
  by apply bool_decide_eq_false in H.
Qed.

Lemma step_spawned_ok (e : event) (s s' : Server) :
  step e s = Some s' → spawned_ok s → spawned_ok s'.
Proof.
  unfold spawned_ok.
  destruct e as [m p self| |cmd|ok| |request|name']; simpl;
    intros Hstep [Hnd Hlive].
  - destruct (heap s !! self) eqn:Hfresh; [done|].
    apply make_request_fields in Hstep as (p' & -> & _ & -> & _).
    split.
    + apply NoDup_app. split; [done|]. split; [|apply NoDup_singleton].
      intros a Ha Hself. apply list_elem_of_singleton in Hself as ->.
      apply Hlive in Ha as [??]. congruence.
    + intros a Ha. rewrite lookup_insert. case_decide; [by eexists|].
      apply elem_of_app in Ha as [Ha|Ha]; [by apply Hlive|].
      by apply list_elem_of_singleton in Ha.
  - destruct (spawned s) as [|request rest] eqn:Hsp; simplify_eq/=.
    apply NoDup_cons in Hnd as [_ Hnd].
    set (s1 := mkServer _ _ _ _ _ _ _ _ rest _ _).
    destruct (send_request_fields request s1)
      as (_ & _ & _ & _ & -> & _ & [(-> & _)|(-> & _)]);
      (split; [done|]); intros a Ha.
    + rewrite lookup_alter. case_decide; subst.
      * apply fmap_is_Some. apply Hlive. by left.
      * apply Hlive. by right.
    + apply Hlive. by right.
  - destruct (iostream s) as [[[]]|] eqn:E; simplify_eq/=.
    destruct (process_command_fields cmd s)
      as (_ & _ & _ & _ & _ & -> & _).
    split; [done|]. intros a Ha.
    assert (is_Some (heap (process_command cmd s) !! a) ↔
            is_Some (heap s !! a)) as ->; [|by apply Hlive].
    unfold process_command.
    destruct (default JNull (cmd !! "method")) eqn:Hm;
      try (destruct (lookup_method _ _) as [cb|]; [|done];
           destruct (call cb _ s) as [s1|] eqn:Hcall; simpl; [|done];
           apply call_frame in Hcall;
           destruct Hcall as (_ & _ & _ & _ & _ & _ & -> & _); done).
    destruct (request_key _ ≫= _); [|done]. simpl.
    rewrite lookup_alter. case_decide; subst; [|done].
    by rewrite fmap_is_Some.
  - unfold _connect_klippy in Hstep.
    by destruct (connect_timers s); simplify_eq/=.
  - unfold stream_closed in Hstep.
    destruct (iostream s) as [[[]]|]; simplify_eq/=.
    split; [done|]. intros a Ha. apply notify_all_is_Some. by apply Hlive.
  - destruct (heap s !! request); [|done].
    destruct (referenced request s) eqn:Href; simplify_eq/=.
    apply referenced_false_spawned in Href.
    split; [done|]. intros a Ha. rewrite lookup_delete_ne; [by apply Hlive|].
    by intros <-.
  - simplify_eq. unfold register_remote_method.
    by destruct (remote_methods s !! name').
Qed.

Lemma reachable_spawned_ok (s : Server) : reachable s → spawned_ok s.
Proof.
  intros [events Hrun]. revert Hrun.
  assert (spawned_ok init_server) as Hinit.
  { split; [constructor|]. intros a Ha. by apply elem_of_nil in Ha. }
  revert Hinit. generalize init_server as s0. revert s.
  induction events as [|e events IH]; simpl; intros s s0 Hok Hrun.
  - by simplify_eq.
  - destruct (step e s0) as [s1|] eqn:Hstep; simpl in Hrun; [|done].
    eapply IH; [|done]. by eapply step_spawned_ok.
Qed.

(** X6: while the stream to Klippy is open, the oldest spawned send writes
    one frame for its request, made of the request's own id, its method
    and its parameters, and changes neither the registry nor any
    request. *)
Theorem send_request_writes_frame
    (s : Server) (request : Z) (rest : list Z) :
  reachable s →
  spawned s = request :: rest →
  iostream s = Some (mkIOStream false) →
  ∃ s' r frame,
    step SendRequest s = Some s' ∧
    heap s !! request = Some r ∧
    trace s' = trace s ++ [Written (JObj frame)] ∧
    frame !! "id" = Some (JInt request) ∧
    frame !! "method" = Some (JStr (rpc_method r)) ∧
    frame !! "params" = Some (JObj (params r)) ∧
    dom frame = {["id"; "method"; "params"]} ∧
    heap s' = heap s ∧ pending_requests s' = pending_requests s ∧
    spawned s' = rest.
Proof.
  intros Hreach Hsp Hio.
  destruct (reachable_spawned_ok s Hreach) as [_ Hlive].
  destruct (Hlive request) as [r Hr]; [rewrite Hsp; by left|].
  assert (id r = request) as Hid
    by by apply (live_id s (reachable_registry_ok s Hreach)).
  eexists _, r, _. simpl. rewrite Hsp. split; [reflexivity|].
  unfold send_request. simpl. rewrite Hio, Hr. simpl.
  split; [done|]. split; [reflexivity|].
  rewrite Hid. repeat (split; [done|]). done.
Qed.

(** A connected server with one request made and not yet sent. *)
Lemma send_request_writes_frame_witness :
  let s := default init_server
             (run [Connect true; MakeRequest "info" ∅ 100] init_server) in
  ∃ s' r frame,
    step SendRequest s = Some s' ∧
    heap s !! 100 = Some r ∧
    trace s' = trace s ++ [Written (JObj frame)] ∧
    frame !! "id" = Some (JInt 100) ∧
    frame !! "method" = Some (JStr (rpc_method r)) ∧
    frame !! "params" = Some (JObj (params r)) ∧
    dom frame = {["id"; "method"; "params"]} ∧
    heap s' = heap s ∧ pending_requests s' = pending_requests s ∧
    spawned s' = [].
Proof.
  apply (send_request_writes_frame _ 100 []).
  - exists [Connect true; MakeRequest "info" ∅ 100]. vm_compute. reflexivity.
  - vm_compute. reflexivity.
  - vm_compute. reflexivity.
Defined.

(** X7: while there is no open stream (never connected, or the stream is
    closed), the oldest spawned send writes nothing and fails its
    request with [ServerError("Klippy Host not connected", 503)], which
    is raised to the caller. *)
Theorem send_request_not_connected
    (s : Server) (request : Z) (rest : list Z) :
  reachable s →
  spawned s = request :: rest →
  iostream s ≠ Some (mkIOStream false) →
  ∃ s' r,
    step SendRequest s = Some s' ∧
    heap s !! request = Some r ∧
    heap s' !! request = Some (notify klippy_not_connected r) ∧
    make_request_result request s' =
      Some (Raised (mkServerError (JStr "Klippy Host not connected") 503)) ∧
    trace s' = trace s ∧ spawned s' = rest.
Proof.
  intros Hreach Hsp Hio.
  destruct (reachable_spawned_ok s Hreach) as [_ Hlive].
  destruct (Hlive request) as [r Hr]; [rewrite Hsp; by left|].
  eexists _, r. simpl. rewrite Hsp. split; [reflexivity|].
  split; [done|].
  unfold make_request_result, send_request. simpl.
  destruct (iostream s) as [[[]]|]; simpl; try done;
    rewrite lookup_alter_eq, Hr; done.
Qed.

Lemma send_request_not_connected_witness :
  let s := default init_server
             (run [MakeRequest "info" ∅ 100] init_server) in
  ∃ s' r,
    step SendRequest s = Some s' ∧
    heap s !! 100 = Some r ∧
    heap s' !! 100 = Some (notify klippy_not_connected r) ∧
    make_request_result 100 s' =
      Some (Raised (mkServerError (JStr "Klippy Host not connected") 503)) ∧
    trace s' = trace s ∧ spawned s' = [].
Proof.
  apply (send_request_not_connected _ 100 []).
  - exists [MakeRequest "info" ∅ 100]. vm_compute. reflexivity.
  - vm_compute. reflexivity.
  - vm_compute. discriminate.
Defined.

(** ** Induction over the reachable states *)

Lemma run_app (events1 events2 : list event) (s : Server) :
  run (events1 ++ events2) s = run events1 s ≫= run events2.
Proof.
  revert s. induction events1 as [|e events1 IH]; simpl; intros s; [done|].
  destruct (step e s) as [s1|]; simpl; [apply IH|done].
Qed.

Lemma reachable_step (e : event) (s s' : Server) :
  reachable s → step e s = Some s' → reachable s'.
Proof.
  intros [events Hrun] Hstep. exists (events ++ [e]).
  rewrite run_app, Hrun. simpl. by rewrite Hstep.
Qed.

Lemma reachable_ind (P : Server → Prop) :
  P init_server →
  (∀ e s s', reachable s → P s → step e s = Some s' → P s') →
  ∀ s, reachable s → P s.
Proof.
  intros Hinit Hstep s [events Hrun]. revert s Hrun.
  induction events as [|e events IH] using rev_ind; intros s Hrun.
  - by simplify_eq/=.
  - rewrite run_app in Hrun.
    destruct (run events init_server) as [s1|] eqn:Hrun1; [|done].
    simpl in Hrun. destruct (step e s1) as [s2|] eqn:He; simplify_eq/=.
    eapply Hstep; [by exists events|by apply IH|done].
Qed.

(** ** How a request is resolved *)

(** What one turn of the loop can do to the request at an address: leave
    it, create it, or notify it in one of the three ways. *)
Lemma step_heap_cases (e : event) (s s' : Server) (a : Z) (r' : BaseRequest) :
  registry_ok s →
  step e s = Some s' →
  heap s' !! a = Some r' →
  heap s !! a = Some r' ∨
  (heap s !! a = None ∧ ∃ m p, r' = new_request a m p) ∨
  (∃ r resp, heap s !! a = Some r ∧ r' = notify resp r ∧
             resolution_ok a resp).
Proof.
  intros Hok.
  destruct e as [m p self| |cmd|ok| |request|name']; simpl; intros Hstep Hr'.
  - destruct (heap s !! self) eqn:Hfresh; [done|].
    apply make_request_fields in Hstep as (p' & Hh & _).
    rewrite Hh, lookup_insert in Hr'. case_decide; simplify_eq; [|by left].
    right; left. split; [done|]. by eexists _, _.
  - destruct (spawned s) as [|request rest]; simplify_eq/=.
    set (s1 := mkServer _ _ _ _ _ _ _ _ rest _ _) in *.
    destruct (send_request_fields request s1)
      as (_ & _ & _ & _ & _ & _ & [(Hh & _)|(Hh & _)]);
      rewrite Hh in Hr'; [|by left].
    rewrite lookup_alter in Hr'. case_decide; subst; [|by left].
    simpl in Hr'. destruct (heap s !! a) as [r|]; simplify_eq/=.
    right; right. exists r, klippy_not_connected.
    split; [done|]. split; [done|]. by left.
  - destruct (iostream s) as [[[]]|]; simplify_eq/=.
    unfold process_command in Hr'.
    destruct (default JNull (cmd !! "method")) eqn:Hm;
      try (left;
           destruct (lookup_method _ _) as [cb|]; [|done];
           destruct (call cb _ s) as [s1|] eqn:Hcall; simpl in Hr'; [|done];
           apply call_frame in Hcall;
           destruct Hcall as (_ & _ & _ & _ & _ & _ & <- & _); done).
    destruct (request_key _ ≫= _) as [request|] eqn:Hk; [|by left].
    simpl in Hr'. apply bind_Some in Hk as (k & Hkey & Hk).
    assert (k = request) as -> by by apply (registered_self s Hok).
    rewrite lookup_alter in Hr'. case_decide; subst; [|by left].
    destruct (heap s !! a) as [r|]; simplify_eq/=.
    right; right. exists r, (command_result cmd).
    split; [done|]. split; [done|]. right; right. by exists cmd.
  - left. unfold _connect_klippy in Hstep.
    by destruct (connect_timers s); simplify_eq/=.
  - unfold stream_closed in Hstep.
    destruct (iostream s) as [[[]]|]; simplify_eq/=.
    rewrite notify_all_lookup in Hr' by apply (registered_self s Hok).
    destruct (pending_requests s !! a); [|by left].
    destruct (heap s !! a) as [r|]; simplify_eq/=.
    right; right. exists r, klippy_disconnected.
    split; [done|]. split; [done|]. right; by left.
  - left. destruct (heap s !! request); [|done].
    destruct (referenced request s); simplify_eq/=.
    by apply lookup_delete_Some in Hr' as [_ ?].
  - left. simplify_eq. unfold register_remote_method in Hr'.
    by destruct (remote_methods s !! name').
Qed.

Lemma reachable_request_ok (s : Server) :
  reachable s → ∀ a r, heap s !! a = Some r → request_ok a r.
Proof.
  intros Hreach. induction Hreach as [|e s s' Hreach IH Hstep]
    using reachable_ind; [intros a r Hr; simpl in Hr; by simplify_map_eq|].
  intros a r' Hr'.
  destruct (step_heap_cases e s s' a r' (reachable_registry_ok s Hreach)
              Hstep Hr') as [Hsame|[[_ (m & p & ->)]|(r & resp & Hr & -> & Hres)]].
  - by apply IH.
  - split; [done|constructor].
  - destruct (IH a r Hr) as [_ Hall]. split; simpl.
    + by rewrite last_snoc.
    + apply Forall_app. split; [done|]. by constructor.
Qed.

Lemma command_result_cases (cmd : gmap string json) :
  (∃ v, command_result cmd = Payload v ∧ truthy v = true) ∨
  (∃ err, command_result cmd = Error (mkServerError err 400)).
Proof.
  unfold command_result. destruct (cmd !! "result") as [v|]; [left|right].
  - eexists. split; [done|]. by destruct (truthy v) eqn:E.
  - by eexists.
Qed.



(** X9: what [make_request] gives its caller, in every reachable state: a
    value it returns is truthy (a falsy result has become "ok"), and an
    error it raises has status 400 when Klippy answered and 503 when the
    request could not be sent or the connection was lost. *)
Theorem make_request_result_truthy_or_400_503
    (s : Server) (a : Z) (o : outcome) :
  reachable s →
  make_request_result a s = Some o →
  match o with
  | Returned v => truthy v = true
  | Raised e => status_code e = 400 ∨ status_code e = 503
  end.
Proof.
  intros Hreach Hres. unfold make_request_result, wait in Hres.
  destruct (heap s !! a) as [r|] eqn:Hr; [|done]. simpl in Hres.
  destruct (_event r) eqn:Hev; [|done].
  destruct (reachable_request_ok s Hreach a r Hr) as [Hresp Hall].
  apply (event_notified s (reachable_registry_ok s Hreach) a r Hr) in Hev.
  destruct (last (notified r)) as [resp|] eqn:Hlast;
    [|by apply last_None in Hlast].
  assert (resolution_ok a resp) as Hok.
  { apply (proj1 (Forall_forall _ _) Hall).
    apply last_Some in Hlast as [l ->]. apply elem_of_app. right. by left. }
  simpl in Hresp. rewrite Hresp in Hres.
  destruct Hok as [->|[->|(cmd & _ & _ & ->)]]; simplify_eq/=; auto.
  destruct (command_result_cases cmd) as [(v & -> & Hv)|(err & ->)];
    simplify_eq/=; auto.
Qed.

Lemma make_request_result_truthy_or_400_503_witness :
  truthy (JStr "ok") = true.
Proof.
  apply (make_request_result_truthy_or_400_503
           (process_command (<["id" := JInt 100]> {["result" := JObj ∅]})
              one_pending) 100 (Returned (JStr "ok"))).
  - exists [MakeRequest "info" ∅ 100; Connect true; SendRequest;
            Receive (<["id" := JInt 100]> {["result" := JObj ∅]})].
    vm_compute. reflexivity.
  - vm_compute. reflexivity.
Defined.

(** ** The order of sends *)

Lemma step_spawned (e : event) (s s' : Server) :
  step e s = Some s' →
  match e with
  | MakeRequest _ _ self => spawned s' = spawned s ++ [self]
  | SendRequest => ∃ request, spawned s = request :: spawned s'
  | _ => spawned s' = spawned s
  end.
Proof.
  destruct e as [m p self| |cmd|ok| |request|name']; simpl; intros Hstep.
  - destruct (heap s !! self); [done|].
    by apply make_request_fields in Hstep as (p' & _ & _ & -> & _).
  - destruct (spawned s) as [|request rest]; simplify_eq/=.
    exists request. f_equal.
    by destruct (send_request_fields request
                   (mkServer (init_list s) (klippy_state s)
                      (all_subscriptions s) (pending_requests s)
                      (remote_methods s) (iostream s) (init_cb s) (heap s)
                      rest (connect_timers s) (trace s)))
      as (_ & _ & _ & _ & -> & _).
  - destruct (iostream s) as [[[]]|]; simplify_eq/=.
    by destruct (process_command_fields cmd s) as (_ & _ & _ & _ & _ & -> & _).
  - unfold _connect_klippy in Hstep.
    by destruct (connect_timers s); simplify_eq/=.
  - unfold stream_closed in Hstep.
    by destruct (iostream s) as [[[]]|]; simplify_eq/=.
  - destruct (heap s !! request); [|done].
    by destruct (referenced request s); simplify_eq/=.
  - simplify_eq. unfold register_remote_method.
    by destruct (remote_methods s !! name').
Qed.

Lemma run_spawned (events : list event) (s s' : Server) :
  run events s = Some s' →
  ∃ handled, spawned s ++ created_ids events = handled ++ spawned s'.
Proof.
  revert s. induction events as [|e events IH]; simpl; intros s Hrun.
  - simplify_eq. exists []. by rewrite app_nil_r.
  - destruct (step e s) as [s1|] eqn:Hstep; simpl in Hrun; [|done].
    destruct (IH s1 Hrun) as [handled Hh].
    apply step_spawned in Hstep.
    destruct e as [m p self| |cmd|ok| |request|name']; unfold created_ids;
      simpl; fold (created_ids events);
      try (exists handled; by rewrite <- Hstep).
    + exists handled. by rewrite <- Hh, Hstep, <- app_assoc.
    + destruct Hstep as [request ->]. exists (request :: handled).
      simpl. by rewrite Hh.
Qed.

(** X10: the sends run in the order in which [make_request] was called: at
    any time the requests whose send has not run yet are the most
    recently created ones, in creation order. *)
Theorem sends_run_in_creation_order (events : list event) (s : Server) :
  run events init_server = Some s →
  ∃ handled, created_ids events = handled ++ spawned s.
Proof. intros Hrun. by apply run_spawned in Hrun. Qed.

Lemma sends_run_in_creation_order_witness :
  ∃ handled,
    created_ids [Connect true; MakeRequest "info" ∅ 100;
                 MakeRequest "objects/list" ∅ 200; SendRequest;
                 MakeRequest "gcode/script" ∅ 300]
    = handled ++
      spawned (default init_server
                 (run [Connect true; MakeRequest "info" ∅ 100;
                       MakeRequest "objects/list" ∅ 200; SendRequest;
                       MakeRequest "gcode/script" ∅ 300] init_server)).
Proof.
  apply sends_run_in_creation_order. vm_compute. reflexivity.
Defined.

(** ** The subscription table only grows *)

Lemma fields_le_refl (f : fields) : fields_le f f.
Proof. destruct f; simpl; [set_solver|done]. Qed.

Lemma fields_le_trans (f g h : fields) :
  fields_le f g → fields_le g h → fields_le f h.
Proof. destruct f, g, h; simpl; try done. set_solver. Qed.

Lemma table_le_refl (t : subscriptions) : table_le t t.
Proof. intros obj f Hf. exists f. split; [done|apply fields_le_refl]. Qed.

Lemma table_le_trans (t u v : subscriptions) :
  table_le t u → table_le u v → table_le t v.
Proof.
  intros Htu Huv obj f Hf.
  destruct (Htu obj f Hf) as (g & Hg & Hfg).
  destruct (Huv obj g Hg) as (h & Hh & Hgh).
  exists h. split; [done|]. by eapply fields_le_trans.
Qed.

Lemma merge_subscriptions_le (t objects : subscriptions) :
  table_le t (merge_subscriptions t objects).
Proof.
  intros obj f Hf. rewrite merge_subscriptions_lookup, Hf.
  destruct (objects !! obj) as [items|]; simpl.
  - eexists. split; [done|]. destruct f as [l|], items as [k|]; simpl; try done.
    intros x Hx. apply uitems_spec. by left.
  - exists f. split; [done|apply fields_le_refl].
Qed.

Lemma step_table_le (e : event) (s s' : Server) :
  step e s = Some s' →
  table_le (all_subscriptions s) (all_subscriptions s').
Proof.
  destruct e as [m p self| |cmd|ok| |request|name']; simpl; intros Hstep.
  - destruct (heap s !! self); [done|].
    apply make_request_fields in Hstep as (p' & _ & _ & _ & _ & _ & _ & _ & H).
    destruct (String.eqb m "objects/subscribe").
    + destruct H as (objects & _ & ->). apply merge_subscriptions_le.
    + destruct H as [-> _]. apply table_le_refl.
  - destruct (spawned s) as [|request rest]; simplify_eq/=.
    destruct (send_request_fields request
                   (mkServer (init_list s) (klippy_state s)
                      (all_subscriptions s) (pending_requests s)
                      (remote_methods s) (iostream s) (init_cb s) (heap s)
                      rest (connect_timers s) (trace s)))
      as (-> & _). apply table_le_refl.
  - destruct (iostream s) as [[[]]|]; simplify_eq/=.
    destruct (process_command_fields cmd s) as (_ & -> & _).
    apply table_le_refl.
  - unfold _connect_klippy in Hstep.
    destruct (connect_timers s); simplify_eq/=. apply table_le_refl.
  - unfold stream_closed in Hstep.
    destruct (iostream s) as [[[]]|]; simplify_eq/=. apply table_le_refl.
  - destruct (heap s !! request); [|done].
    destruct (referenced request s); simplify_eq/=. apply table_le_refl.
  - simplify_eq. unfold register_remote_method.
    destruct (remote_methods s !! name'); apply table_le_refl.
Qed.

(** X11: whatever happens (requests, responses, notifications, disconnection
    and reconnection), an object once in [all_subscriptions] stays in
    it, an entry that asks for every field keeps doing so, and a field
    list never loses a name. *)
Theorem all_subscriptions_never_shrinks
    (events : list event) (s s' : Server) (obj : string) (f : fields) :
  run events s = Some s' →
  all_subscriptions s !! obj = Some f →
  ∃ g, all_subscriptions s' !! obj = Some g ∧ fields_le f g.
Proof.
  intros Hrun.
  assert (table_le (all_subscriptions s) (all_subscriptions s')) as Hle.
  { revert s Hrun. induction events as [|e events IH]; simpl; intros s Hrun.
    - simplify_eq. apply table_le_refl.
    - destruct (step e s) as [s1|] eqn:Hstep; simpl in Hrun; [|done].
      eapply table_le_trans; [by eapply step_table_le|by apply IH]. }
  intros Hf. by apply Hle.
Qed.

Lemma all_subscriptions_never_shrinks_witness :
  ∃ g, all_subscriptions
         (default init_server
            (run [StreamClosed; Connect true;
                  MakeRequest "objects/subscribe" subscribe_empty_fields 100]
                 ready_server)) !! "toolhead" = Some g ∧
       fields_le (Some ["position"%string]) g.
Proof.
  apply (all_subscriptions_never_shrinks
           [StreamClosed; Connect true;
            MakeRequest "objects/subscribe" subscribe_empty_fields 100]
           ready_server _ "toolhead" (Some ["position"%string])).
  - vm_compute. reflexivity.
  - vm_compute. reflexivity.
Defined.

(** ** The built-in notifications *)

Lemma size_two_keys (k1 k2 : string) (v1 v2 : json) :
  k1 ≠ k2 → size (<[k1 := v1]> ({[k2 := v2]} : gmap string json)) = 2%nat.
Proof.
  intros Hne. rewrite map_size_insert_None, map_size_singleton; [done|].
  by apply lookup_singleton_ne.
Qed.

(** X12: in every reachable state a "process_gcode_response" notification
    with the single parameter 'response' publishes the event
    "server:gcode_response" with that response and changes nothing else;
    without parameters the call fails and the server is as before. *)
Theorem gcode_response_published
    (s : Server) (cmd : gmap string json) (response : json) :
  reachable s →
  cmd !! "method" = Some (JStr "process_gcode_response") →
  (cmd !! "params" = Some (JObj {["response" := response]}) →
   process_command cmd s = send_event "server:gcode_response" [response] s) ∧
  (cmd !! "params" = None → process_command cmd s = s).
Proof.
  intros Hreach Hm.
  destruct (reachable_builtin_methods s Hreach) as (Hg & _).
  unfold process_command. rewrite Hm. simpl. rewrite Hg.
  split; intros ->; simpl; [|done].
  by rewrite lookup_singleton_eq, map_size_singleton.
Qed.

Lemma gcode_response_published_witness :
  let cmd : gmap string json :=
    <["method" := JStr "process_gcode_response"]>
      {["params" := JObj {["response" := JStr "ok"]}]} in
  (cmd !! "params" = Some (JObj {["response" := JStr "ok"]}) →
   process_command cmd one_pending
   = send_event "server:gcode_response" [JStr "ok"] one_pending) ∧
  (cmd !! "params" = None → process_command cmd one_pending = one_pending).
Proof.
  apply gcode_response_published.
  - exists [MakeRequest "info" ∅ 100; Connect true; SendRequest].
    vm_compute. reflexivity.
  - vm_compute. reflexivity.
Defined.

(** X13: in every reachable state a "process_status_update" notification
    whose status carries a webhooks state that is not null makes that
    state the [klippy_state] and publishes "server:status_update" with
    the whole status last; when the state is "shutdown",
    "server:klippy_shutdown" is published just before it. *)
Theorem status_update_sets_klippy_state
    (s : Server) (cmd : gmap string json) (eventtime state : json)
    (status webhooks : gmap string json) :
  reachable s →
  cmd !! "method" = Some (JStr "process_status_update") →
  cmd !! "params" =
    Some (JObj (<["eventtime" := eventtime]> {["status" := JObj status]})) →
  status !! "webhooks" = Some (JObj webhooks) →
  webhooks !! "state" = Some state →
  state ≠ JNull →
  let s' := process_command cmd s in
  klippy_state s' = state ∧
  last (trace s') = Some (Event "server:status_update" [JObj status]) ∧
  (state = JStr "shutdown" →
   trace s' = trace s ++ [Event "server:klippy_shutdown" [];
                          Event "server:status_update" [JObj status]]).
Proof.
  intros Hreach Hm Hp Hw Hst Hnull.
  destruct (reachable_builtin_methods s Hreach) as (_ & Hu).
  simpl. unfold process_command. rewrite Hm, Hp. simpl. rewrite Hu. simpl.
  rewrite lookup_insert_eq, lookup_insert_ne, lookup_singleton_eq by done.
  rewrite size_two_keys by done. simpl.
  rewrite Hw, Hst. simpl.
  destruct state; try done; simpl;
    (split; [done|]); (split; [by rewrite last_snoc|]);
    intros [= ->]; simpl; by rewrite <- app_assoc.
Qed.

Lemma status_update_sets_klippy_state_witness :
  let status : gmap string json :=
    {["webhooks" := JObj {["state" := JStr "shutdown"]}]} in
  let cmd : gmap string json :=
    <["method" := JStr "process_status_update"]>
      {["params" := JObj (<["eventtime" := JInt 7]>
                            {["status" := JObj status]})]} in
  let s' := process_command cmd one_pending in
  klippy_state s' = JStr "shutdown" ∧
  last (trace s') = Some (Event "server:status_update" [JObj status]) ∧
  (JStr "shutdown" = JStr "shutdown" →
   trace s' = trace one_pending ++
     [Event "server:klippy_shutdown" [];
      Event "server:status_update" [JObj status]]).
Proof.
  apply (status_update_sets_klippy_state one_pending _ (JInt 7)
           (JStr "shutdown")
           {["webhooks" := JObj {["state" := JStr "shutdown"]}]}
           {["state" := JStr "shutdown"]}).
  - exists [MakeRequest "info" ∅ 100; Connect true; SendRequest].
    vm_compute. reflexivity.
  - vm_compute. reflexivity.
  - vm_compute. reflexivity.
  - vm_compute. reflexivity.
  - vm_compute. reflexivity.
  - discriminate.
Defined.

(** X14: a status update without a 'webhooks' entry, or whose webhooks state
    is absent or null, only publishes "server:status_update":
    [klippy_state] stays as it is. *)
Theorem status_update_without_state
    (s : Server) (cmd : gmap string json) (eventtime : json)
    (status : gmap string json) :
  reachable s →
  cmd !! "method" = Some (JStr "process_status_update") →
  cmd !! "params" =
    Some (JObj (<["eventtime" := eventtime]> {["status" := JObj status]})) →
  (status !! "webhooks" = None ∨
   ∃ webhooks, status !! "webhooks" = Some (JObj webhooks) ∧
               default JNull (webhooks !! "state") = JNull) →
  process_command cmd s = send_event "server:status_update" [JObj status] s.
Proof.
  intros Hreach Hm Hp Hw.
  destruct (reachable_builtin_methods s Hreach) as (_ & Hu).
  unfold process_command. rewrite Hm, Hp. simpl. rewrite Hu. simpl.
  rewrite lookup_insert_eq, lookup_insert_ne, lookup_singleton_eq by done.
  rewrite size_two_keys by done. simpl.
  destruct Hw as [->|(webhooks & -> & ->)]; done.
Qed.

Lemma status_update_without_state_witness :
  let status : gmap string json :=
    {["toolhead" := JObj {["position" := JArr [JInt 0; JInt 0]]}]} in
  let cmd : gmap string json :=
    <["method" := JStr "process_status_update"]>
      {["params" := JObj (<["eventtime" := JInt 7]>
                            {["status" := JObj status]})]} in
  process_command cmd one_pending
  = send_event "server:status_update" [JObj status] one_pending.
Proof.
  apply (status_update_without_state one_pending _ (JInt 7)).
  - exists [MakeRequest "info" ∅ 100; Connect true; SendRequest].
    vm_compute. reflexivity.
  - vm_compute. reflexivity.
  - vm_compute. reflexivity.
  - left. vm_compute. reflexivity.
Defined.

(** * The event bus *)

Lemma register_all_lookup {H} (registrations : list (string * H))
    (events : event_handlers H) (event : string) :
  default [] (register_all registrations events !! event) =
  default [] (events !! event) ++
    (snd <$> filter (λ r, r.1 = event) registrations).
Proof.
  revert events. induction registrations as [|[e cb] regs IH]; simpl;
    intros events.
  - by rewrite app_nil_r.
  - unfold register_all in *. simpl. rewrite IH.
    unfold register_event_handler. rewrite lookup_insert, filter_cons. simpl.
    case_decide; subst; simpl; [|done].
    by rewrite <- app_assoc.
Qed.

(** X15: after any sequence of registrations, publishing an event spawns
    exactly the callbacks registered for that event, once per
    registration and in registration order, each with the arguments of
    the event; callbacks of other events are not spawned, and an event
    nobody registered for spawns nothing. *)
Theorem send_event_spawns_in_registration_order {H}
    (registrations : list (string * H)) (event : string) (args : list json) :
  send_event_spawns (register_all registrations ∅) event args =
    (λ r, (r.2, args)) <$> filter (λ r, r.1 = event) registrations.
Proof.
  unfold send_event_spawns. rewrite register_all_lookup, lookup_empty. simpl.
  by rewrite <- list_fmap_compose.
Qed.

(** * The plugin registry *)

Lemma load_plugin_cases {P D} (modules : string → plugin_module P)
    (plugin_name : string) (default : option D)
    (plugins plugins1 : gmap string P) (r : plugin_result P D) :
  load_plugin modules plugin_name default plugins = (r, plugins1) →
  raised r = false →
  plugins ⊆ plugins1 ∧
  (default = None → is_Some (plugins1 !! plugin_name)) ∧
  (∀ n, is_Some (plugins1 !! n) → is_Some (plugins !! n) ∨ n = plugin_name).
Proof.
  unfold load_plugin. destruct (plugins !! plugin_name) as [p|] eqn:Hp.
  - intros [= <- <-] _. split; [done|]. split; [by rewrite Hp; eauto|].
    by left.
  - destruct (modules plugin_name), default; simpl; intros [= <- <-] Hr;
      try done; try (split; [done|]; split; [done|by left]).
    all: split; [by apply insert_subseteq|];
      (split; [by rewrite lookup_insert_eq; eauto|]);
      intros n Hn; rewrite lookup_insert in Hn;
      case_decide; [by right|by left].
Qed.

(** X16: [load_plugin] never replaces or removes a plugin: a name already
    loaded is returned as it is, without looking at the file system;
    otherwise the registry gains the plugin under the requested name
    when the module loads, after which [lookup_plugin] finds it, and is
    unchanged when it does not.  A [ServerError] is raised only when the
    caller gave no default. *)
Theorem load_plugin_registry {P D} (modules : string → plugin_module P)
    (plugin_name : string) (default : option D) (plugins : gmap string P) :
  let r := (load_plugin modules plugin_name default plugins).1 in
  let plugins' := (load_plugin modules plugin_name default plugins).2 in
  (∀ p, plugins !! plugin_name = Some p → r = Plugin p ∧ plugins' = plugins) ∧
  (∀ other, other ≠ plugin_name → plugins' !! other = plugins !! other) ∧
  match r with
  | Plugin p =>
      plugins' !! plugin_name = Some p ∧
      ∀ d : option D, lookup_plugin plugins' plugin_name d = Plugin p
  | Default d => default = Some d ∧ plugins' = plugins
  | RaiseServerError _ => default = None ∧ plugins' = plugins
  | RaiseImportError => plugins' = plugins
  end.
Proof.
  unfold load_plugin, lookup_plugin.
  destruct (plugins !! plugin_name) as [p|] eqn:Hp; simpl.
  - split; [by intros ? [= <-]|]. split; [done|]. by rewrite Hp.
  - split; [done|].
    destruct (modules plugin_name), default; simpl;
      (split; [try done; by intros; apply lookup_insert_ne|]);
      try done.
    all: by rewrite lookup_insert_eq.
Qed.

Lemma load_each_spec {P} (modules : string → plugin_module P)
    (default : option unit) (names : list string)
    (plugins plugins' : gmap string P) :
  load_each modules default names plugins = Some plugins' →
  plugins ⊆ plugins' ∧
  (default = None → ∀ n, n ∈ names → is_Some (plugins' !! n)) ∧
  (∀ n, is_Some (plugins' !! n) → is_Some (plugins !! n) ∨ n ∈ names).
Proof.
  revert plugins. induction names as [|name names IH]; simpl; intros plugins H.
  - simplify_eq. split; [done|]. split; [|by left].
    intros _ n Hn. by apply elem_of_nil in Hn.
  - destruct (load_plugin modules name default plugins) as [r plugins1] eqn:E.
    destruct (raised r) eqn:Hr; [done|].
    destruct (IH plugins1 H) as (Hsub & Hall & Honly).
    destruct (load_plugin_cases modules name default plugins plugins1 r E Hr)
      as (Hsub1 & Hname & Honly1).
    split; [by etrans|]. split.
    + intros -> n Hn. apply elem_of_cons in Hn as [->|Hn]; [|by apply Hall].
      eapply lookup_weaken_is_Some; [|done]. by apply Hname.
    + intros n Hn. destruct (Honly n Hn) as [Hn1|Hn1]; [|right; by right].
      destruct (Honly1 n Hn1) as [?| ->]; [by left|].
      right. apply elem_of_cons. by left.
Qed.

(** X17: when [_load_plugins] completes, every core plugin is loaded, every
    plugin loaded before is still the same, and a plugin that was not
    loaded before is a core plugin or an optional section of the
    configuration, never 'server', 'authorization' or 'cmd_args'. *)
Theorem load_plugins_loads_core {P} (modules : string → plugin_module P)
    (sections : list string) (plugins plugins' : gmap string P) :
  _load_plugins modules sections plugins = Some plugins' →
  (∀ n, n ∈ CORE_PLUGINS → is_Some (plugins' !! n)) ∧
  plugins ⊆ plugins' ∧
  (∀ n, is_Some (plugins' !! n) →
     is_Some (plugins !! n) ∨ n ∈ CORE_PLUGINS ∨
     (n ∈ sections ∧
      n ∉ ["server"; "authorization"; "cmd_args"]%string)).
Proof.
  unfold _load_plugins. intros H.
  apply bind_Some in H as (plugins1 & H1 & H2).
  apply load_each_spec in H1 as (Hsub1 & Hall1 & Honly1).
  apply load_each_spec in H2 as (Hsub2 & _ & Honly2).
  split; [|split].
  - intros n Hn. eapply lookup_weaken_is_Some; [|done]. by apply Hall1.
  - by etrans.
  - intros n Hn. destruct (Honly2 n Hn) as [Hn1|Hn1].
    + destruct (Honly1 n Hn1); auto.
    + right; right. apply elem_of_elements in Hn1.
      apply elem_of_difference in Hn1 as [Hs Hr].
      rewrite elem_of_list_to_set in Hs, Hr. done.
Qed.

(** A configuration with the section 'power' next to 'server', on a
    system where the core plugins load and 'power' has no
    [load_plugin]. *)
Lemma load_plugins_loads_core_witness :
  let modules (n : string) : plugin_module nat :=
    if bool_decide (n ∈ CORE_PLUGINS) then Loads (String.length n)
    else LoadRaises in
  let plugins' := default ∅ (_load_plugins modules ["server"; "power"] ∅) in
  (∀ n, n ∈ CORE_PLUGINS → is_Some (plugins' !! n)) ∧
  (∅ : gmap string nat) ⊆ plugins' ∧
  (∀ n, is_Some (plugins' !! n) →
     is_Some ((∅ : gmap string nat) !! n) ∨ n ∈ CORE_PLUGINS ∨
     (n ∈ ["server"; "power"]%string ∧
      n ∉ ["server"; "authorization"; "cmd_args"]%string)).
Proof.
  apply (load_plugins_loads_core
           (λ n, if bool_decide (n ∈ CORE_PLUGINS) then Loads (String.length n)
                 else LoadRaises)).
  vm_compute. reflexivity.
Defined.

(** * Framing *)

Lemma read_until_frame (payload rest : list byte) :
  x03 ∉ payload →
  read_until (frame payload ++ rest) = Some (frame payload, rest).
Proof.
  unfold frame. induction payload as [|b payload IH]; simpl; intros Hnot.
  - done.
  - apply not_elem_of_cons in Hnot as [Hne Hnot].
    rewrite decide_False by done. by rewrite IH.
Qed.

Lemma read_until_none (buffer : list byte) :
  x03 ∉ buffer → read_until buffer = None.
Proof.
  induction buffer as [|b buffer IH]; simpl; intros Hnot; [done|].
  apply not_elem_of_cons in Hnot as [Hne Hnot].
  rewrite decide_False by done. by rewrite IH.
Qed.

Lemma read_frames_frames (fuel : nat) (payloads : list (list byte))
    (partial : list byte) :
  Forall (λ payload, x03 ∉ payload) payloads →
  x03 ∉ partial →
  (length payloads ≤ fuel)%nat →
  read_frames fuel (concat (frame <$> payloads) ++ partial)
  = (payloads, partial).
Proof.
  intros Hall Hpartial. revert fuel.
  induction Hall as [|payload payloads Hp Hall IH]; simpl; intros fuel Hfuel.
  - destruct fuel; simpl; [done|]. by rewrite read_until_none.
  - destruct fuel as [|fuel]; simpl; [lia|].
    rewrite <- app_assoc, read_until_frame by done.
    rewrite IH by lia. unfold frame. by rewrite removelast_last.
Qed.

Lemma length_frames (payloads : list (list byte)) (partial : list byte) :
  (length payloads ≤ length (concat (frame <$> payloads) ++ partial))%nat.
Proof.
  induction payloads as [|payload payloads IH]; simpl; [lia|].
  rewrite <- app_assoc, length_app. unfold frame at 1.
  rewrite length_app. simpl.
  change (list_fmap _ _ frame payloads) with (frame <$> payloads). lia.
Qed.

(** X18: framing round trip: when no payload contains the byte 0x03, reading
    the frames written for a sequence of payloads, followed by the
    beginning of a frame still in transit, gives back exactly those
    payloads in order and keeps the incomplete bytes buffered. *)
Theorem read_frames_round_trip (payloads : list (list byte))
    (partial : list byte) :
  Forall (λ payload, x03 ∉ payload) payloads →
  x03 ∉ partial →
  let buffer := concat (frame <$> payloads) ++ partial in
  read_frames (length buffer) buffer = (payloads, partial).
Proof.
  intros Hall Hpartial buffer. apply read_frames_frames; [done..|].
  apply length_frames.
Qed.

(** Shows that a given list of bytes has no 0x03. *)
Ltac no_terminator :=
  let H := fresh in
  intros H;
  repeat (apply elem_of_cons in H as [H|H]; [discriminate|]);
  by apply elem_of_nil in H.

Lemma read_frames_round_trip_witness :
  let payloads := [[x7b; x7d]; []; [x5b; x31; x5d]] in
  let buffer := concat (frame <$> payloads) ++ [x7b; x22] in
  read_frames (length buffer) buffer = (payloads, [x7b; x22]).
Proof.
  apply (read_frames_round_trip [[x7b; x7d]; []; [x5b; x31; x5d]] [x7b; x22]).
  - repeat (apply Forall_cons; split; [no_terminator|]). constructor.
  - no_terminator.
Defined.



(** * The readiness sequence *)

Section ReadinessProperties.

Import Readiness.

Lemma verify_frame (apis : klippy_apis) (st : state) :
  let st' := (_verify_klippy_requirements apis st).1 in
  init_list st' = init_list st ∧ klippy_state st' = klippy_state st ∧
  init_cb st' = init_cb st ∧ ∃ cs, calls st' = calls st ++ cs.
Proof.
  assert (∀ st0 : state, st0 = st →
    init_list st0 = init_list st ∧ klippy_state st0 = klippy_state st ∧
    init_cb st0 = init_cb st ∧ ∃ cs, calls st0 = calls st ++ cs) as Hsame.
  { intros ? ->. repeat (split; [done|]). exists []. by rewrite app_nil_r. }
  unfold _verify_klippy_requirements.
  repeat case_match; simpl; try by apply Hsame.
  all: repeat (split; [done|]); by eexists.
Qed.

Lemma is_ready_spec (v : json) : is_ready v = true → v = JStr "ready".
Proof. unfold is_ready. by repeat case_match. Qed.

Lemma check_ready_cases (apis : klippy_apis) (st st' : state)
    (e : option exception) :
  _check_ready apis st = (st', e) →
  init_cb st' = init_cb st ∧
  ((init_list st' = init_list st ∧ klippy_state st' = klippy_state st) ∨
   (e = None ∧ init_list st' = init_list st ++ ["klippy_ready"] ∧
    klippy_state st' = JStr "ready" ∧
    last (calls st') = Some (send_event "server:klippy_ready") ∧
    ∃ result, get_klippy_info apis = inr result ∧
              result !! "state" = Some (JStr "ready"))).
Proof.
  unfold _check_ready. intros H.
  destruct (get_klippy_info apis) as [err|result];
    [simplify_eq; split; [done|left; by split]|].
  destruct (fixed_paths path_keys result) as [err|paths];
    [simplify_eq; split; [done|left; by split]|].
  set (st1 := add_call (update_fixed_paths paths) st) in *.
  destruct (is_ready (default (JStr "") (result !! "state"))) eqn:Hready.
  - pose proof (verify_frame apis st1) as (Hl & Hk & Hc & _).
    destruct (_verify_klippy_requirements apis st1) as [st2 [err|]];
      simplify_eq; simpl in *; [split; [done|left; by split]|].
    split; [done|]. right. split; [done|]. rewrite Hl. split; [done|].
    split; [done|]. split; [by rewrite last_snoc|].
    exists result. split; [done|].
    apply is_ready_spec in Hready.
    by destruct (result !! "state"); simplify_eq/=.
  - assert (st' = st1) as -> by (by repeat case_match; simplify_eq).
    split; [done|left; by split].
Qed.

Lemma request_endpoints_frame (apis : klippy_apis) (st : state) :
  let st' := (_request_endpoints apis st).1 in
  init_list st' = init_list st ∧ klippy_state st' = klippy_state st ∧
  init_cb st' = init_cb st.
Proof.
  unfold _request_endpoints.
  destruct (list_endpoints apis) as [result|]; [|done].
  destruct (iterate _) as [eps|]; [|done]. simpl.
  induction eps as [|ep eps IH] using rev_ind; [done|].
  by rewrite foldl_app.
Qed.

(** X20: a run of [_initialize] only appends to [init_list], and what it
    appends has no repetition: "klippy_ready", or one of the two
    subscription milestones, each recorded only if it was not in the
    list before. *)
Theorem initialize_appends_new_milestones
    (apis : klippy_apis) (st : state) :
  let st' := (_initialize apis st).1 in
  ∃ added,
    init_list st' = init_list st ++ added ∧ NoDup added ∧
    ∀ m, m ∈ added →
      m = "klippy_ready" ∨
      ((m = "webhooks_sub" ∨ m = "gcode_output_sub") ∧ m ∉ init_list st).
Proof.
  simpl. unfold _initialize.
  destruct (_check_ready apis st) as [st1 e1] eqn:H1.
  apply check_ready_cases in H1 as [_ H1].
  assert (∃ a1, init_list st1 = init_list st ++ a1 ∧
                (a1 = [] ∨ a1 = ["klippy_ready"%string])) as (a1 & Hl1 & Ha1).
  { destruct H1 as [[-> _]|(_ & -> & _)].
    - exists []. split; [by rewrite app_nil_r|by left].
    - eexists. split; [done|by right]. }
  assert (NoDup a1 ∧ ∀ m, m ∈ a1 → m = "klippy_ready") as [Hnd1 Hin1].
  { destruct Ha1 as [->| ->]; split.
    - constructor.
    - intros m Hm. by apply elem_of_nil in Hm.
    - apply NoDup_singleton.
    - intros m Hm. by apply list_elem_of_singleton in Hm. }
  destruct e1 as [e1|]; [exists a1; simpl; by auto|].
  pose proof (request_endpoints_frame apis st1) as (Hl2 & _).
  destruct (_request_endpoints apis st1) as [st2 [e2|]]; simpl in Hl2;
    [exists a1; simpl; rewrite Hl2; by auto|].
  unfold subscribe_once, append_init_list.
  repeat (case_bool_decide || case_match); simpl in *;
    rewrite ?Hl2, ?Hl1 in *; rewrite <- ?app_assoc;
    (eexists; split; [reflexivity|]);
    (split; [destruct Ha1 as [->| ->]; simpl;
               repeat (constructor; [set_solver|]); constructor|]);
    intros m Hm; set_solver.
Qed.

Lemma subscribe_once_cases (milestone : string) (outcome : option ServerError)
    (st : state) :
  let st' := subscribe_once milestone outcome st in
  klippy_state st' = klippy_state st ∧ init_cb st' = init_cb st ∧
  calls st' = calls st ∧
  (init_list st' = init_list st ∨
   (init_list st' = init_list st ++ [milestone] ∧
    (milestone ∉ init_list st) ∧ outcome = None)).
Proof.
  unfold subscribe_once. case_bool_decide; [by auto|].
  destruct outcome; simpl; [by auto|]. repeat (split; [done|]). by right.
Qed.

(** X21: when a run of [_initialize] completes, the periodic callback is
    stopped exactly when "klippy_ready" is in [init_list], whether or
    not the two subscriptions were made; when the run ends in an
    exception the callback is left as it was. *)
Theorem initialize_stops_polling_iff_klippy_ready
    (apis : klippy_apis) (st st' : state) (e : option exception) :
  _initialize apis st = (st', e) →
  init_cb st' =
    match e with
    | None => if bool_decide ("klippy_ready" ∈ init_list st') then false
              else init_cb st
    | Some _ => init_cb st
    end.
Proof.
  unfold _initialize.
  destruct (_check_ready apis st) as [st1 e1] eqn:H1.
  apply check_ready_cases in H1 as [Hc1 _].
  destruct e1 as [e1|]; [by intros [= <- <-]|].
  pose proof (request_endpoints_frame apis st1) as (_ & _ & Hc2).
  destruct (_request_endpoints apis st1) as [st2 [e2|]]; simpl in Hc2;
    [intros [= <- <-]; congruence|].
  pose proof (subscribe_once_cases "webhooks_sub" (subscribe_objects apis) st2)
    as (_ & Hc3 & _).
  set (st3 := subscribe_once "webhooks_sub" (subscribe_objects apis) st2) in *.
  pose proof (subscribe_once_cases "gcode_output_sub"
                (subscribe_gcode_output apis) st3) as (_ & Hc4 & _).
  set (st4 := subscribe_once "gcode_output_sub"
                (subscribe_gcode_output apis) st3) in *.
  simpl in *. case_bool_decide as Hready; intros [= <- <-]; simpl.
  - by rewrite bool_decide_eq_true_2.
  - rewrite bool_decide_eq_false_2 by done. congruence.
Qed.

(** Klippy is ready but the webhooks subscription fails: the run
    records "klippy_ready" and "gcode_output_sub" and stops the periodic
    callback, with "webhooks_sub" missing. *)
Lemma initialize_stops_polling_iff_klippy_ready_witness :
  let st' := (_initialize ready_apis connected_state).1 in
  init_cb st' =
    match @None exception with
    | None => if bool_decide ("klippy_ready" ∈ init_list st') then false
              else init_cb connected_state
    | Some _ => init_cb connected_state
    end.
Proof.
  apply (initialize_stops_polling_iff_klippy_ready ready_apis connected_state).
  vm_compute. reflexivity.
Defined.

Lemma fixed_paths_missing (keys : list string) (result : gmap string json) :
  (∃ k, k ∈ keys ∧ result !! k = None) →
  ∃ k, k ∈ keys ∧ result !! k = None ∧
       fixed_paths keys result = inl (KeyError k).
Proof.
  induction keys as [|k keys IH]; intros (k0 & Hin & Hk0).
  - by apply elem_of_nil in Hin.
  - simpl. destruct (result !! k) as [v|] eqn:Hk.
    + apply elem_of_cons in Hin as [->|Hin]; [congruence|].
      destruct IH as (k' & Hin' & Hk' & ->); [by eauto|].
      exists k'. split; [by right|done].
    + exists k. split; [by left|done].
Qed.

(** X22: when the answer of [get_klippy_info] lacks one of the four paths
    ('klipper_path', 'python_path', 'log_file', 'config_file'), the run
    of [_initialize] ends at once with a KeyError for a missing path: no
    collaborator is called, the state is as before, and neither
    subscription is attempted. *)
Theorem initialize_key_error_on_missing_path
    (apis : klippy_apis) (st : state) (result : gmap string json) (k : string) :
  get_klippy_info apis = inr result →
  k ∈ path_keys →
  result !! k = None →
  ∃ k', k' ∈ path_keys ∧ result !! k' = None ∧
        _initialize apis st = (st, Some (KeyError k')).
Proof.
  intros Hinfo Hin Hk.
  destruct (fixed_paths_missing path_keys result) as (k' & Hin' & Hk' & Hfp);
    [by eauto|].
  exists k'. split; [done|]. split; [done|].
  unfold _initialize, _check_ready. by rewrite Hinfo, Hfp.
Qed.

Lemma initialize_key_error_on_missing_path_witness :
  ∃ k', k' ∈ path_keys ∧
        ({["state" := JStr "ready"]} : gmap string json) !! k' = None ∧
        _initialize
          (mkApis (inr {["state" := JStr "ready"]}) None None None None None)
          connected_state
        = (connected_state, Some (KeyError k')).
Proof.
  apply (initialize_key_error_on_missing_path
           (mkApis (inr {["state" := JStr "ready"]}) None None None None None)
           connected_state {["state" := JStr "ready"]} "log_file").
  - reflexivity.
  - set_solver.
  - reflexivity.
Defined.

(** X23: [_verify_klippy_requirements] registers the 'gcodes' directory, with
    deletion allowed, when 'virtual_sdcard' is among Klippy's objects
    and the configfile query gives a path for it that is not null; when
    'virtual_sdcard' is not among the objects nothing is registered; the
    absence of 'display_status' or 'pause_resume' changes neither. *)
Theorem verify_registers_gcodes_directory
    (apis : klippy_apis) (st : state) (objects : list string) :
  get_object_list apis = Some objects →
  ("virtual_sdcard" ∉ objects →
   _verify_klippy_requirements apis st = (st, None)) ∧
  (∀ result configfile config virtual_sdcard path,
     "virtual_sdcard" ∈ objects →
     query_objects apis = Some result →
     result !! "configfile" = Some (JObj configfile) →
     configfile !! "config" = Some (JObj config) →
     config !! "virtual_sdcard" = Some (JObj virtual_sdcard) →
     virtual_sdcard !! "path" = Some path →
     path ≠ JNull →
     _verify_klippy_requirements apis st =
       (add_call (register_directory "gcodes" path true) st, None)).
Proof.
  intros Hobjs. unfold _verify_klippy_requirements, missing_objs, req_objs.
  rewrite Hobjs. split.
  - intros Hnot. rewrite decide_True; [done|].
    apply elem_of_difference. split; [set_solver|].
    by rewrite elem_of_list_to_set.
  - intros result configfile config virtual_sdcard path Hin Hq Hcf Hc Hv Hp Hn.
    rewrite decide_False.
    + rewrite Hq. unfold vsd_path, py_get. rewrite Hcf. simpl.
      rewrite Hc. simpl. rewrite Hv. simpl. rewrite Hp. simpl.
      by destruct path.
    + intros [_ Hnot]%elem_of_difference. apply Hnot.
      by apply elem_of_list_to_set.
Qed.

Lemma verify_registers_gcodes_directory_witness :
  ("virtual_sdcard" ∉ ["virtual_sdcard"; "toolhead"]%string →
   _verify_klippy_requirements ready_apis connected_state
   = (connected_state, None)) ∧
  (∀ result configfile config virtual_sdcard path,
     "virtual_sdcard" ∈ ["virtual_sdcard"; "toolhead"]%string →
     query_objects ready_apis = Some result →
     result !! "configfile" = Some (JObj configfile) →
     configfile !! "config" = Some (JObj config) →
     config !! "virtual_sdcard" = Some (JObj virtual_sdcard) →
     virtual_sdcard !! "path" = Some path →
     path ≠ JNull →
     _verify_klippy_requirements ready_apis connected_state =
       (add_call (register_directory "gcodes" path true) connected_state,
        None)).
Proof.
  apply (verify_registers_gcodes_directory ready_apis connected_state).
  reflexivity.
Defined.

End ReadinessProperties.

(** * The GPIO power plugin *)

Section PowerProperties.

Import Power.

Lemma lower_ascii_idemp (c : ascii) : lower_ascii (lower_ascii c) = lower_ascii c.
Proof. by destruct c as [[] [] [] [] [] [] [] []]. Qed.

Lemma lower_idemp (s : string) : lower (lower s) = lower s.
Proof.
  induction s as [|c s IH]; simpl; [done|].
  by rewrite lower_ascii_idemp, IH.
Qed.

(** X24: the state Klippy sends to [set_device_power] is read without regard
    to case: it means "on" exactly when it is the boolean true or a
    string that is "on" or "true" once lowered, "off" exactly when it is
    false or a string that lowers to "off" or "false", and is invalid
    otherwise (numbers included); a valid state never gives anything but
    "on" or "off".  So [set_device_power] spawns a request only for a
    configured device named by a string, and only the request "on" or
    "off". *)
Theorem power_status_on_off (state : json) :
  (power_status state = Some "on" ↔
   state = JBool true ∨
   ∃ s, state = JStr s ∧ (lower s = "on" ∨ lower s = "true")) ∧
  (power_status state = Some "off" ↔
   state = JBool false ∨
   ∃ s, state = JStr s ∧ (lower s = "off" ∨ lower s = "false")) ∧
  (∀ status, power_status state = Some status →
             status = "on" ∨ status = "off") ∧
  (∀ s, power_status (JStr (lower s)) = power_status (JStr s)) ∧
  (∀ Dev (device : json) (devices : gmap string Dev) name status,
     set_device_power device state devices = Spawned name status →
     device = JStr name ∧ is_Some (devices !! name) ∧
     power_status state = Some status ∧ (status = "on" ∨ status = "off")).
Proof.
  assert (∀ status, power_status state = Some status →
                    status = "on" ∨ status = "off") as Hvalid.
  { intros status. unfold power_status.
    destruct state as [|[]| |s| |]; simpl; try done;
      try (intros [= <-]; by auto).
    repeat case_bool_decide; try done; intros [= <-]; set_solver. }
  assert (∀ s, power_status (JStr s) =
               if bool_decide (lower s ∈ ["on"; "true"]) then Some "on"
               else if bool_decide (lower s ∈ ["off"; "false"]) then Some "off"
               else None) as Hstr.
  { intros s. unfold power_status. generalize (lower s) as l. intros l.
    destruct (decide (l = "true")) as [->|Ht]; [done|].
    destruct (decide (l = "false")) as [->|Hf]; [done|].
    destruct (decide (l = "on")) as [->|Hon]; [done|].
    destruct (decide (l = "off")) as [->|Hoff]; [done|].
    rewrite (bool_decide_eq_false_2 (l ∈ ["true"; "false"])) by set_solver.
    rewrite (bool_decide_eq_false_2 (l ∈ ["on"; "off"])) by set_solver.
    rewrite (bool_decide_eq_false_2 (l ∈ ["on"; "true"])) by set_solver.
    by rewrite (bool_decide_eq_false_2 (l ∈ ["off"; "false"])) by set_solver. }
  split; [|split; [|split; [|split]]].
  - split.
    + destruct state as [|[]| |s| |]; try done; try (by left).
      rewrite Hstr. intros H.
      right. exists s. split; [done|].
      repeat case_bool_decide; simplify_eq. set_solver.
    + intros [->|(s & -> & Hs)]; [done|]. rewrite Hstr.
      rewrite bool_decide_eq_true_2; [done|]. set_solver.
  - split.
    + destruct state as [|[]| |s| |]; try done; try (by left).
      rewrite Hstr. intros H.
      right. exists s. split; [done|].
      repeat case_bool_decide; simplify_eq. set_solver.
    + intros [->|(s & -> & Hs)]; [done|]. rewrite Hstr.
      rewrite bool_decide_eq_false_2, bool_decide_eq_true_2; [done|set_solver|].
      intros Hin. apply elem_of_cons in Hin as [Hin|Hin];
        [|apply list_elem_of_singleton in Hin];
        destruct Hs as [Hs|Hs]; rewrite Hs in Hin; done.
  - done.
  - intros s. by rewrite !Hstr, lower_idemp.
  - intros Dev device devices name status. unfold set_device_power.
    destruct (power_status state) as [status'|] eqn:Hstatus; [|done].
    destruct device as [| | |name'| |]; try done.
    destruct (devices !! name') as [d|] eqn:Hd; [|done].
    intros [= <- <-]. split; [done|]. split; [by eexists|]. by auto.
Qed.

Lemma decide_elem_of_cons_ne {A} (k a : string) (args : list string) (x y : A) :
  k ≠ a →
  (if decide (k ∈ a :: args) then x else y)
  = (if decide (k ∈ args) then x else y).
Proof.
  intros Hne. destruct (decide (k ∈ a :: args)) as [Hin|Hin],
    (decide (k ∈ args)) as [Hin'|Hin']; try done.
  - apply elem_of_cons in Hin as [?|?]; done.
  - destruct Hin. by apply elem_of_cons; right.
Qed.

Lemma decide_elem_of_cons_eq {A} (a : string) (args : list string) (x y : A) :
  (if decide (a ∈ a :: args) then x else y) = x.
Proof.
  destruct (decide (a ∈ a :: args)) as [Hin|Hin]; [done|].
  destruct Hin. by apply elem_of_cons; left.
Qed.

Lemma requested_lookup (devices : gmap string GpioDevice) (args : list string)
    (k : string) :
  (list_to_map (omap (λ k, (k,.) <$> devices !! k) args)
     : gmap string GpioDevice) !! k
  = if decide (k ∈ args) then devices !! k else None.
Proof.
  induction args as [|a args IH]; csimpl.
  - by rewrite lookup_empty.
  - destruct (decide (k = a)) as [->|Hne].
    + rewrite decide_elem_of_cons_eq.
      destruct (devices !! a) as [d|] eqn:Ha; csimpl.
      * by rewrite lookup_insert_eq.
      * rewrite IH. by case_decide.
    + rewrite decide_elem_of_cons_ne by done.
      destruct (devices !! a) as [d|] eqn:Ha; csimpl; [|done].
      by rewrite lookup_insert_ne.
Qed.

Lemma power_requests_switch (hw : lines) (req : string) (args : list string)
    (requested devices : gmap string GpioDevice) (result : gmap string string) :
  req ∈ ["on"; "off"]%string →
  NoDup args →
  (∀ k d, k ∈ args → requested !! k = Some d →
          set_value_ok hw (name d) = true) →
  ∃ devices' events result',
    power_requests hw req args requested devices result
      = (devices', events, inr result') ∧
    (∀ k, result' !! k =
          if decide (k ∈ args)
          then Some (match requested !! k with
                     | Some _ => req
                     | None => "device_not_found"
                     end)
          else result !! k) ∧
    (∀ k, devices' !! k =
          if decide (k ∈ args)
          then match requested !! k with
               | Some d => Some (mkDevice (name d) req)
               | None => devices !! k
               end
          else devices !! k) ∧
    events = (λ d, ("gpio_power:power_changed",
                    get_device_info (mkDevice (name d) req)))
             <$> omap (requested !!.) args.
Proof.
  intros Hreq Hnd. revert devices result.
  induction Hnd as [|a args Ha Hnd IH]; intros devices result Hok; csimpl.
  - eexists _, _, _. split; [done|]. by repeat split.
  - assert (∀ k d0, k ∈ args → requested !! k = Some d0 →
                    set_value_ok hw (name d0) = true) as Hok'.
    { intros k d0 Hk. apply Hok. by apply elem_of_cons; right. }
    destruct (requested !! a) as [d|] eqn:Hd.
    + unfold _process_request, set_power.
      rewrite bool_decide_eq_true_2 by done.
      rewrite (Hok a d) by (done || by apply elem_of_cons; left). csimpl.
      destruct (IH (<[a := mkDevice (name d) req]> devices)
                   (<[a := req]> result) Hok')
        as (d' & ev & r' & -> & Hr & Hdv & ->).
      eexists _, _, _. split; [done|]. split; [|split; [|done]].
      * intros k. rewrite Hr. destruct (decide (k = a)) as [->|Hne].
        -- rewrite decide_elem_of_cons_eq, decide_False by done.
           by rewrite lookup_insert_eq, Hd.
        -- rewrite decide_elem_of_cons_ne by done.
           by rewrite lookup_insert_ne.
      * intros k. rewrite Hdv. destruct (decide (k = a)) as [->|Hne].
        -- rewrite decide_elem_of_cons_eq, decide_False by done.
           by rewrite lookup_insert_eq, Hd.
        -- rewrite decide_elem_of_cons_ne by done.
           by rewrite lookup_insert_ne.
    + destruct (IH devices (<[a := "device_not_found"]> result) Hok')
        as (d' & ev & r' & -> & Hr & Hdv & ->).
      eexists _, _, _. split; [done|]. split; [|split; [|done]].
      * intros k. rewrite Hr. destruct (decide (k = a)) as [->|Hne].
        -- rewrite decide_elem_of_cons_eq, decide_False by done.
           by rewrite lookup_insert_eq, Hd.
        -- rewrite decide_elem_of_cons_ne by done.
           by rewrite lookup_insert_ne.
      * intros k. rewrite Hdv. destruct (decide (k = a)) as [->|Hne].
        -- rewrite decide_elem_of_cons_eq, decide_False by done.
           by rewrite Hd.
        -- by rewrite decide_elem_of_cons_ne.
Qed.

(** X25: a request to switch devices on or off whose GPIO lines all work
    answers for every requested name: the new status for a configured
    device, "device_not_found" for any other name.  Every requested
    device that is configured ends in the requested state, the other
    devices are untouched, and one "gpio_power:power_changed" event is
    published per device switched. *)
Theorem handle_power_request_switches_devices
    (hw : lines) (args : list string) (ep req : string)
    (devices : gmap string GpioDevice) :
  args ≠ [] →
  NoDup args →
  last_component EmptyString ep = req →
  req ∈ ["on"; "off"]%string →
  (∀ k d, k ∈ args → devices !! k = Some d →
          set_value_ok hw (name d) = true) →
  ∃ devices' events result,
    _handle_power_request hw args ep devices
      = (devices', events, inr result) ∧
    (∀ k, result !! k =
          if decide (k ∈ args)
          then Some (match devices !! k with
                     | Some _ => req
                     | None => "device_not_found"
                     end)
          else None) ∧
    (∀ k, devices' !! k =
          if decide (k ∈ args)
          then (λ d, mkDevice (name d) req) <$> devices !! k
          else devices !! k) ∧
    events = (λ d, ("gpio_power:power_changed",
                    get_device_info (mkDevice (name d) req)))
             <$> omap (devices !!.) args.
Proof.
  intros Hne Hnd Hep Hreq Hok. unfold _handle_power_request.
  destruct args as [|a args]; [done|]. rewrite Hep.
  set (requested := list_to_map _ : gmap string GpioDevice).
  assert (∀ k, k ∈ a :: args → requested !! k = devices !! k) as Hrq.
  { intros k Hk. unfold requested. rewrite requested_lookup.
    by rewrite decide_True. }
  destruct (power_requests_switch hw req (a :: args) requested devices ∅
              Hreq Hnd) as (d' & ev & r' & -> & Hr & Hdv & ->).
  { intros k d Hk Hd. apply (Hok k); [done|]. by rewrite <- Hrq. }
  eexists _, _, _. split; [done|]. split; [|split].
  - intros k. rewrite Hr. case_decide; [by rewrite Hrq|done].
  - intros k. rewrite Hdv. case_decide; [|done]. rewrite Hrq by done.
    by destruct (devices !! k).
  - f_equal. clear -Hrq. revert Hrq. generalize (a :: args) as l.
    induction l as [|k l IH]; intros Hrq; csimpl; [done|].
    rewrite (Hrq k) by (by apply elem_of_cons; left).
    rewrite IH; [done|]. intros k' Hk'. apply Hrq. by apply elem_of_cons; right.
Qed.

Lemma handle_power_request_switches_devices_witness :
  let hw := mkLines (λ _, true) (λ _, Some true) in
  let devices : gmap string GpioDevice :=
    {["printer" := mkDevice "printer" "off"]} in
  let args := ["printer"; "lamp"]%string in
  ∃ devices' events result,
    _handle_power_request hw args "/machine/gpio_power/on" devices
      = (devices', events, inr result) ∧
    (∀ k, result !! k =
          if decide (k ∈ args)
          then Some (match devices !! k with
                     | Some _ => "on"%string
                     | None => "device_not_found"%string
                     end)
          else None) ∧
    (∀ k, devices' !! k =
          if decide (k ∈ args)
          then (λ d, mkDevice (name d) "on") <$> devices !! k
          else devices !! k) ∧
    events = (λ d, ("gpio_power:power_changed"%string,
                    get_device_info (mkDevice (name d) "on")))
             <$> omap (devices !!.) args.
Proof.
  apply (handle_power_request_switches_devices
           (mkLines (λ _, true) (λ _, Some true))
           ["printer"; "lamp"]%string "/machine/gpio_power/on" "on").
  - discriminate.
  - apply (bool_decide_unpack _). vm_compute. exact I.
  - vm_compute. reflexivity.
  - apply elem_of_cons. by left.
  - reflexivity.
Defined.

(** X26: when the GPIO line of the first requested device cannot be set, the
    request stops there: that device is left in state "error", nothing
    is published, the devices after it are not touched, and what reaches
    the caller is the AttributeError of the error handler of
    [GpioDevice.set_power] (which reads [self.server], an attribute a
    [GpioDevice] does not have), not a [ServerError]. *)
Theorem handle_power_request_line_failure
    (hw : lines) (k : string) (rest : list string) (ep req : string)
    (devices : gmap string GpioDevice) (d : GpioDevice) :
  last_component EmptyString ep = req →
  req ∈ ["on"; "off"]%string →
  devices !! k = Some d →
  set_value_ok hw (name d) = false →
  _handle_power_request hw (k :: rest) ep devices
  = (<[k := mkDevice (name d) "error"]> devices, [], inl AttributeErr).
Proof.
  intros Hep Hreq Hd Hfail. unfold _handle_power_request. rewrite Hep.
  cbn [power_requests]. rewrite requested_lookup.
  rewrite decide_elem_of_cons_eq, Hd.
  unfold _process_request, set_power.
  by rewrite bool_decide_eq_true_2, Hfail by done.
Qed.

Lemma handle_power_request_line_failure_witness :
  _handle_power_request (mkLines (λ _, false) (λ _, None))
    ["printer"; "lamp"]%string "/machine/gpio_power/off"
    (<["lamp" := mkDevice "lamp" "on"]>
       {["printer" := mkDevice "printer" "on"]})
  = (<["printer" := mkDevice (name (mkDevice "printer" "on")) "error"]>
       (<["lamp" := mkDevice "lamp" "on"]>
          {["printer" := mkDevice "printer" "on"]}),
     [], inl AttributeErr).
Proof.
  apply (handle_power_request_line_failure
           (mkLines (λ _, false) (λ _, None)) "printer" ["lamp"%string]
           "/machine/gpio_power/off" "off").
  - vm_compute. reflexivity.
  - apply elem_of_cons. right. apply elem_of_cons. by left.
  - vm_compute. reflexivity.
  - reflexivity.
Defined.

Lemma power_requests_status (hw : lines) (args : list string)
    (requested devices : gmap string GpioDevice) (result : gmap string string) :
  NoDup args →
  (∀ k d, k ∈ args → requested !! k = Some d →
          is_Some (get_value hw (name d))) →
  ∃ devices' result',
    power_requests hw "status" args requested devices result
      = (devices', [], inr result') ∧
    (∀ k, result' !! k =
          if decide (k ∈ args)
          then Some (match requested !! k with
                     | Some d =>
                         if default false (get_value hw (name d))
                         then "on" else "off"
                     | None => "device_not_found"
                     end)
          else result !! k) ∧
    (∀ k, devices' !! k =
          if decide (k ∈ args)
          then match requested !! k with
               | Some d =>
                   Some (mkDevice (name d)
                           (if default false (get_value hw (name d))
                            then "on" else "off"))
               | None => devices !! k
               end
          else devices !! k).
Proof.
  intros Hnd. revert devices result.
  induction Hnd as [|a args Ha Hnd IH]; intros devices result Hok; csimpl.
  - eexists _, _. split; [done|]. by split.
  - assert (∀ k d0, k ∈ args → requested !! k = Some d0 →
                    is_Some (get_value hw (name d0))) as Hok'.
    { intros k d0 Hk. apply Hok. by apply elem_of_cons; right. }
    destruct (requested !! a) as [d|] eqn:Hd.
    + unfold _process_request, refresh_status.
      rewrite bool_decide_eq_false_2 by set_solver.
      destruct (Hok a d) as [val Hval]; [by apply elem_of_cons; left|done|].
      rewrite Hval. csimpl.
      destruct (IH (<[a := mkDevice (name d) (if val then "on" else "off")]>
                      devices)
                   (<[a := if val then "on" else "off"]> result) Hok')
        as (d' & r' & -> & Hr & Hdv).
      eexists _, _. split; [done|]. split.
      * intros k. rewrite Hr. destruct (decide (k = a)) as [->|Hne].
        -- rewrite decide_elem_of_cons_eq, decide_False by done.
           by rewrite lookup_insert_eq, Hd, Hval.
        -- rewrite decide_elem_of_cons_ne by done.
           by rewrite lookup_insert_ne.
      * intros k. rewrite Hdv. destruct (decide (k = a)) as [->|Hne].
        -- rewrite decide_elem_of_cons_eq, decide_False by done.
           by rewrite lookup_insert_eq, Hd, Hval.
        -- rewrite decide_elem_of_cons_ne by done.
           by rewrite lookup_insert_ne.
    + destruct (IH devices (<[a := "device_not_found"]> result) Hok')
        as (d' & r' & -> & Hr & Hdv).
      eexists _, _. split; [done|]. split.
      * intros k. rewrite Hr. destruct (decide (k = a)) as [->|Hne].
        -- rewrite decide_elem_of_cons_eq, decide_False by done.
           by rewrite lookup_insert_eq, Hd.
        -- rewrite decide_elem_of_cons_ne by done.
           by rewrite lookup_insert_ne.
      * intros k. rewrite Hdv. destruct (decide (k = a)) as [->|Hne].
        -- rewrite decide_elem_of_cons_eq, decide_False by done.
           by rewrite Hd.
        -- by rewrite decide_elem_of_cons_ne.
Qed.

(** X27: a status request whose GPIO lines can all be read answers for every
    requested name with what its line reads, "on" or "off", whatever
    state the device was recorded in, and "device_not_found" for a name
    that is not configured; the devices asked about take the state read,
    the others are untouched, and no event is published. *)
Theorem handle_power_request_reads_lines
    (hw : lines) (args : list string) (ep : string)
    (devices : gmap string GpioDevice) :
  args ≠ [] →
  NoDup args →
  last_component EmptyString ep = "status" →
  (∀ k d, k ∈ args → devices !! k = Some d →
          is_Some (get_value hw (name d))) →
  ∃ devices' result,
    _handle_power_request hw args ep devices = (devices', [], inr result) ∧
    (∀ k, result !! k =
          if decide (k ∈ args)
          then Some (match devices !! k with
                     | Some d =>
                         if default false (get_value hw (name d))
                         then "on" else "off"
                     | None => "device_not_found"
                     end)
          else None) ∧
    (∀ k, devices' !! k =
          if decide (k ∈ args)
          then (λ d, mkDevice (name d)
                       (if default false (get_value hw (name d))
                        then "on" else "off")) <$> devices !! k
          else devices !! k).
Proof.
  intros Hne Hnd Hep Hok. unfold _handle_power_request.
  destruct args as [|a args]; [done|]. rewrite Hep.
  set (requested := list_to_map _ : gmap string GpioDevice).
  assert (∀ k, k ∈ a :: args → requested !! k = devices !! k) as Hrq.
  { intros k Hk. unfold requested. rewrite requested_lookup.
    by rewrite decide_True. }
  destruct (power_requests_status hw (a :: args) requested devices ∅ Hnd)
    as (d' & r' & -> & Hr & Hdv).
  { intros k d Hk Hd. apply (Hok k); [done|]. by rewrite <- Hrq. }
  eexists _, _. split; [done|]. split.
  - intros k. rewrite Hr. case_decide; [by rewrite Hrq|done].
  - intros k. rewrite Hdv. case_decide; [|done]. rewrite Hrq by done.
    by destruct (devices !! k).
Qed.

(** A device recorded as "off" whose line reads high, and a name that
    is not configured. *)
Lemma handle_power_request_reads_lines_witness :
  let hw := mkLines (λ _, true) (λ _, Some true) in
  let devices : gmap string GpioDevice :=
    {["printer" := mkDevice "printer" "off"]} in
  let args := ["printer"; "lamp"]%string in
  ∃ devices' result,
    _handle_power_request hw args "/machine/gpio_power/status" devices
      = (devices', [], inr result) ∧
    (∀ k, result !! k =
          if decide (k ∈ args)
          then Some (match devices !! k with
                     | Some d =>
                         if default false (get_value hw (name d))
                         then "on"%string else "off"%string
                     | None => "device_not_found"%string
                     end)
          else None) ∧
    (∀ k, devices' !! k =
          if decide (k ∈ args)
          then (λ d, mkDevice (name d)
                       (if default false (get_value hw (name d))
                        then "on" else "off")) <$> devices !! k
          else devices !! k).
Proof.
  apply (handle_power_request_reads_lines
           (mkLines (λ _, true) (λ _, Some true))
           ["printer"; "lamp"]%string "/machine/gpio_power/status").
  - discriminate.
  - apply (bool_decide_unpack _). vm_compute. exact I.
  - vm_compute. reflexivity.
  - intros k d _ _. by eexists.
Defined.

(** ** Pin options *)

Lemma append_cons (x : ascii) (a b : string) :
  String x a +:+ b = String x (a +:+ b).
Proof. done. Qed.

Lemma append_nil (b : string) : EmptyString +:+ b = b.
Proof. done. Qed.

Lemma append_assoc' (a b c : string) : (a +:+ b) +:+ c = a +:+ (b +:+ c).
Proof.
  induction a as [|x a IH]; [done|]. rewrite !append_cons. f_equal. apply IH.
Qed.

Lemma is_digit_not_slash (c : ascii) :
  is_digit c = true → Ascii.eqb c "/" = false.
Proof. by destruct c as [[] [] [] [] [] [] [] []]. Qed.

Lemma all_digits_no_slash (s : string) : all_digits s → no_slash s.
Proof.
  unfold all_digits, no_slash. intros H.
  eapply Forall_impl; [done|]. apply is_digit_not_slash.
Qed.

Lemma no_slash_app (a b : string) : no_slash a → no_slash b → no_slash (a +:+ b).
Proof.
  unfold no_slash. induction a as [|x a IH]; [done|].
  rewrite append_cons. cbn. intros Ha Hb. apply Forall_cons in Ha as [Hx Ha].
  apply Forall_cons. split; [done|]. by apply IH.
Qed.

Lemma split_no_slash (s : string) : no_slash s → split "/" s = [s].
Proof.
  unfold no_slash. induction s as [|x s IH]; cbn; [done|].
  intros Hs. apply Forall_cons in Hs as [Hx Hs].
  by rewrite Hx, IH.
Qed.

Lemma split_at_slash (a b : string) :
  no_slash a → split "/" (a +:+ String "/" b) = a :: split "/" b.
Proof.
  unfold no_slash. induction a as [|x a IH]; [done|].
  rewrite append_cons. cbn. intros Ha. apply Forall_cons in Ha as [Hx Ha].
  by rewrite Hx, IH.
Qed.

Lemma string_of_uint_digits (d : Decimal.uint) :
  all_digits (NilEmpty.string_of_uint d).
Proof.
  unfold all_digits. induction d; cbn; constructor; done.
Qed.

Lemma decimal_digits (n : N) : all_digits (decimal n) ∧ decimal n ≠ EmptyString.
Proof.
  unfold decimal. generalize (N.to_uint n) as d. intros d. split.
  - destruct d; try apply string_of_uint_digits.
    by repeat constructor.
  - by destruct d.
Qed.

Lemma int_decimal (n : N) : int (decimal n) = n.
Proof.
  unfold int, decimal.
  assert (N.to_uint n ≠ Decimal.Nil) as Hnil.
  { destruct n; [done|]. apply DecimalPos.Unsigned.to_uint_nonnil. }
  assert (NilZero.string_of_uint (N.to_uint n)
          = NilEmpty.string_of_uint (N.to_uint n)) as ->
    by by destruct (N.to_uint n).
  rewrite NilEmpty.usu. apply DecimalN.Unsigned.of_to.
Qed.

Lemma isdigit_all_digits (s : string) :
  all_digits s → s ≠ EmptyString → isdigit s = true.
Proof.
  unfold all_digits, isdigit. destruct s as [|c s]; [done|].
  intros Hall _. apply forallb_forall. intros x Hx.
  apply (proj1 (Forall_forall _ _) Hall). by apply list_elem_of_In.
Qed.

Lemma last_isdigit_all_digits (s : string) :
  all_digits s → s ≠ EmptyString → last_isdigit s = true.
Proof.
  unfold all_digits. induction s as [|c s IH]; [done|].
  cbn. intros Hall _. apply Forall_cons in Hall as [Hc Hall].
  destruct s as [|c' s]; [done|]. by apply IH.
Qed.

Lemma last_isdigit_app (a s : string) :
  s ≠ EmptyString → last_isdigit (a +:+ s) = last_isdigit s.
Proof.
  intros Hs. induction a as [|x a IH]; [done|].
  rewrite append_cons. cbn. rewrite IH.
  destruct (a +:+ s) eqn:E; [|done].
  destruct a; [by rewrite append_nil in E|done].
Qed.

Lemma gpio_no_slash (n : N) : no_slash ("gpio" +:+ decimal n).
Proof.
  apply no_slash_app; [by repeat constructor|].
  apply all_digits_no_slash, decimal_digits.
Qed.

Lemma gpiochip_no_slash (c : N) : no_slash ("gpiochip" +:+ decimal c).
Proof.
  apply no_slash_app; [by repeat constructor|].
  apply all_digits_no_slash, decimal_digits.
Qed.

Lemma parse_pin_checks (c n : N) :
  String.prefix "gpiochip" ("gpiochip" +:+ decimal c) = true ∧
  last_isdigit ("gpiochip" +:+ decimal c) = true ∧
  String.prefix "gpio" ("gpio" +:+ decimal n) = true ∧
  drop_chars 4 ("gpio" +:+ decimal n) = decimal n ∧
  isdigit (decimal n) = true.
Proof.
  destruct (decimal_digits c) as [Hc Hc'], (decimal_digits n) as [Hn Hn'].
  split; [by destruct (decimal c)|].
  split; [by rewrite last_isdigit_app, last_isdigit_all_digits|].
  split; [by destruct (decimal n)|].
  split; [done|]. by apply isdigit_all_digits.
Qed.

(** X28: every pin option of the documented form, "gpio<n>" with an optional
    chip "gpiochip<c>/" before it and an optional "!" in front, is
    accepted and read back exactly: the pin number is [n], the chip is
    the one named ("gpiochip0" when none is), and the line is inverted
    exactly when the "!" is there. *)
Theorem parse_pin_round_trip (invert : bool) (chip : option N) (n : N) :
  _parse_pin (pin_text invert chip n) =
    Pin n
        match chip with
        | Some c => "gpiochip" +:+ decimal c
        | None => "gpiochip0"
        end
        invert.
Proof.
  set (chip_id := match chip with
                  | Some c => "gpiochip" +:+ decimal c
                  | None => "gpiochip0"
                  end).
  set (body := match chip with
               | Some c => "gpiochip" +:+ decimal c +:+ "/"
               | None => ""
               end +:+ "gpio" +:+ decimal n).
  assert (∀ cfg_pin invert, verify_pin cfg_pin body invert
                            = Pin n chip_id invert) as Hverify.
  { intros cfg_pin inv. unfold verify_pin, body, chip_id.
    destruct chip as [c|].
    - destruct (parse_pin_checks c n) as (H1 & H2 & H3 & H4 & H5).
      assert (("gpiochip" +:+ decimal c +:+ "/") +:+ "gpio" +:+ decimal n
              = ("gpiochip" +:+ decimal c)
                  +:+ String "/" ("gpio" +:+ decimal n)) as ->
        by by rewrite !append_assoc'.
      rewrite split_at_slash by apply gpiochip_no_slash.
      rewrite split_no_slash by apply gpio_no_slash.
      rewrite H1, H2, H3, H4, H5. cbn. by rewrite int_decimal.
    - destruct (parse_pin_checks 0 n) as (_ & _ & H3 & H4 & H5).
      rewrite append_nil.
      rewrite split_no_slash by apply gpio_no_slash.
      rewrite H3, H4, H5. cbn. by rewrite int_decimal. }
  assert (∃ rest, body = String "g" rest) as [rest Hbody].
  { unfold body. destruct chip; by eexists. }
  unfold pin_text. fold body. destruct invert.
  - change ("!" +:+ body) with (String "!" body). cbn. apply Hverify.
  - rewrite append_nil. rewrite Hbody at 1. cbn.
    rewrite <- Hbody. apply Hverify.
Qed.






End PowerProperties.
